(** * Board engine of the no-rotation falling-block game

    Shallow embedding of the [Game] class (the board engine: grid, active
    piece, placement validity, line clearing, scoring and levelling) and
    the properties stated about it.

    Conventions of the embedding
    - JavaScript integers (coordinates, dimensions, counters, cell values)
      are [Z], with which binary64 arithmetic agrees as long as operands
      and results stay below 2^53 in magnitude; the timers and
      [deltaTime] are IEEE binary64 numbers ([PrimFloat.float]).
    - An array is a [list]; [a[i]] is stdpp's lookup, [None] standing for
      [undefined].  A board cell is an [option Z]: [Some v] is a stored
      number, [None] a hole of a sparse row (what an out-of-range write
      leaves behind).
    - Methods that can throw return a [result]; the object's fields are
      threaded explicitly as a [Game] record.
    - [Math.random] is an oracle ([RandomSource]) threaded next to the
      engine state; [Math.pow] is implementation-approximated in
      ECMAScript and is kept abstract ([Math_pow]).

    Besides the engine, the file embeds the level and option generators
    of the cube-counting quiz ([CubeCounterGame]) and the keyboard half
    of the [InputManager] that feeds [update]. *)

From Stdlib Require Import ZArith Lia Bool.
From Stdlib Require Import PrimFloat.
From stdpp Require Import base tactics option list strings.

Local Open Scope Z_scope.

(* The decimal literals of the source denote the nearest binary64 value,
   in JavaScript as here. *)
Set Warnings "-inexact-float".

(** ** Outcomes of a method call *)

Inductive error := TypeError | RangeError.

Inductive result (A : Type) :=
| Ok (a : A)
| Throw (e : error)
| OutOfFuel.
Arguments Ok {A} a.
Arguments Throw {A} e.
Arguments OutOfFuel {A}.

Global Instance result_bind : MBind result := fun A B k r =>
  match r with
  | Ok a => k a
  | Throw e => Throw e
  | OutOfFuel => OutOfFuel
  end.

Global Instance result_fmap : FMap result := fun A B f r =>
  match r with
  | Ok a => Ok (f a)
  | Throw e => Throw e
  | OutOfFuel => OutOfFuel
  end.

(** ** Game constants *)

Definition GRID_WIDTH : Z := 10.
Definition GRID_HEIGHT : Z := 20.
Definition PREVIEW_COUNT : nat := 3.
Definition BASE_FALL_SPEED : float := 0.8%float.
Definition FAST_FALL_SPEED : float := 0.05%float.
Definition LEVEL_UP_LINES : Z := 10.
Definition SPEED_INCREASE_FACTOR : float := 0.9%float.
Definition SCORE_PER_LINE : list Z := [0; 100; 300; 500; 800].

(** ** Shapes *)

Record Shape := mkShape {
  shape : list (Z * Z);
  colorIndex : Z
}.

Definition SHAPES : list Shape :=
  [ mkShape [(0, 0); (-1, 0); (1, 0); (2, 0)] 0;
    mkShape [(0, 0); (1, 0); (0, 1); (1, 1)] 1;
    mkShape [(0, 0); (-1, 0); (1, 0); (0, 1)] 2;
    mkShape [(0, 0); (-1, 0); (0, -1); (1, -1)] 3;
    mkShape [(0, 0); (1, 0); (0, -1); (-1, -1)] 4;
    mkShape [(0, 0); (-1, 0); (1, 0); (-1, 1)] 5;
    mkShape [(0, 0); (-1, 0); (1, 0); (1, 1)] 6 ].

(** The value of [Math.floor(Math.random() * SHAPES.length)]: since
    [Math.random()] lies in [0, 1), one of the seven indices. *)
Inductive ShapeIndex := Ix0 | Ix1 | Ix2 | Ix3 | Ix4 | Ix5 | Ix6.

Definition index_nat (i : ShapeIndex) : nat :=
  match i with
  | Ix0 => 0 | Ix1 => 1 | Ix2 => 2 | Ix3 => 3 | Ix4 => 4 | Ix5 => 5 | Ix6 => 6
  end%nat.

Definition SHAPES_at (i : ShapeIndex) : Shape :=
  match SHAPES !! index_nat i with
  | Some s => s
  | None => mkShape [] 0
  end.

(** The successive results of [Math.random], already scaled and floored. *)
Definition RandomSource := nat -> ShapeIndex.

Definition Math_random_index (rnd : RandomSource) : ShapeIndex * RandomSource :=
  (rnd O, fun n => rnd (S n)).

(** ** Engine state *)

Inductive GameState := PLAYING | GAME_OVER.

Record Position := mkPosition { x : Z; y : Z }.

(** A JavaScript number that is either an integer or [NaN] (what
    [undefined * level] evaluates to). *)
Inductive jsnum := Num (z : Z) | NaN.

Definition jsnum_add (a b : jsnum) : jsnum :=
  match a, b with
  | Num u, Num v => Num (u + v)
  | _, _ => NaN
  end.

Abbreviation Row := (list (option Z)).

Record Game := mkGame {
  gridWidth : Z;
  gridHeight : Z;
  board : list Row;
  currentPiece : option Shape;
  currentPosition : Position;
  nextShapes : list Shape;
  score : jsnum;
  linesCleared : Z;
  level : Z;
  fallTimer : float;
  currentFallSpeed : float;
  isDropping : bool;
  gameState : GameState
}.

Definition set_board (b : list Row) (g : Game) : Game :=
  mkGame (gridWidth g) (gridHeight g) b (currentPiece g) (currentPosition g)
    (nextShapes g) (score g) (linesCleared g) (level g) (fallTimer g)
    (currentFallSpeed g) (isDropping g) (gameState g).

Definition set_currentPiece (p : option Shape) (g : Game) : Game :=
  mkGame (gridWidth g) (gridHeight g) (board g) p (currentPosition g)
    (nextShapes g) (score g) (linesCleared g) (level g) (fallTimer g)
    (currentFallSpeed g) (isDropping g) (gameState g).

Definition set_currentPosition (p : Position) (g : Game) : Game :=
  mkGame (gridWidth g) (gridHeight g) (board g) (currentPiece g) p
    (nextShapes g) (score g) (linesCleared g) (level g) (fallTimer g)
    (currentFallSpeed g) (isDropping g) (gameState g).

Definition set_nextShapes (q : list Shape) (g : Game) : Game :=
  mkGame (gridWidth g) (gridHeight g) (board g) (currentPiece g)
    (currentPosition g) q (score g) (linesCleared g) (level g) (fallTimer g)
    (currentFallSpeed g) (isDropping g) (gameState g).

Definition set_fallTimer (t : float) (g : Game) : Game :=
  mkGame (gridWidth g) (gridHeight g) (board g) (currentPiece g)
    (currentPosition g) (nextShapes g) (score g) (linesCleared g) (level g) t
    (currentFallSpeed g) (isDropping g) (gameState g).

Definition set_isDropping (d : bool) (g : Game) : Game :=
  mkGame (gridWidth g) (gridHeight g) (board g) (currentPiece g)
    (currentPosition g) (nextShapes g) (score g) (linesCleared g) (level g)
    (fallTimer g) (currentFallSpeed g) d (gameState g).

Definition set_gameState (s : GameState) (g : Game) : Game :=
  mkGame (gridWidth g) (gridHeight g) (board g) (currentPiece g)
    (currentPosition g) (nextShapes g) (score g) (linesCleared g) (level g)
    (fallTimer g) (currentFallSpeed g) (isDropping g) s.

(** ** Arrays *)

(** [a[i]] for an integer [i]; a negative index reads [undefined]. *)
Definition array_get {A} (a : list A) (i : Z) : option A :=
  if i <? 0 then None else a !! Z.to_nat i.

(** [row[i]] for an integer [i]: a missing index and a hole both read
    [undefined]. *)
Definition row_get (row : list (option Z)) (i : Z) : option Z :=
  match array_get row i with
  | Some c => c
  | None => None
  end.

(** [Array(n).fill(0)]: throws a [RangeError] unless [n] is a valid array
    length. *)
Definition Array_fill0 (n : Z) : result Row :=
  if (n <? 0) || (4294967295 <? n) then Throw RangeError
  else Ok (replicate (Z.to_nat n) (Some 0)).

(** [row[i] = v] for [0 <= i]: an index past the end extends the row,
    leaving holes in between. *)
Definition row_set (row : Row) (i : nat) (v : Z) : Row :=
  if decide (i < length row)%nat then <[i := Some v]> row
  else row ++ replicate (i - length row) None ++ [Some v].

(** [cell !== 0], [None] being [undefined]. *)
Definition cell_nonzero (c : option Z) : bool :=
  match c with
  | Some v => negb (v =? 0)
  | None => true
  end.

(** [row.every(cell => cell !== 0)]; [every] does not visit holes, which
    agrees with [cell_nonzero] on them. *)
Definition row_full (row : Row) : bool := forallb cell_nonzero row.

(** ** Placement validity *)

(** One iteration of the loop of [isValidMove]: [false] is the early
    [return false], [true] falls through to the next offset. *)
Definition offset_ok (g : Game) (pos : Position) (d : Z * Z) : bool :=
  let checkX := x pos + fst d in
  let checkY := y pos + snd d in
  if (checkX <? 0) || (gridWidth g <=? checkX) || (checkY <? 0) then
    if gridHeight g <=? checkY then true else false
  else if checkY <? gridHeight g then
    match array_get (board g) checkY with
    | Some row => negb (cell_nonzero (row_get row checkX))
    | None => true
    end
  else true.

Definition isValidMove (g : Game) (piece : option Shape) (pos : Position) : bool :=
  match piece with
  | None => false
  | Some p => forallb (offset_ok g pos) (shape p)
  end.

(** ** Spawning and selection *)

(** The [forEach] of [spawnNewPiece]: the largest [dy], starting from 0. *)
Definition maxY_of (offsets : list (Z * Z)) : Z :=
  fold_left (fun maxY d => if maxY <? snd d then snd d else maxY) offsets 0.

Definition spawnNewPiece (g : Game) : Game :=
  let g := set_isDropping false g in
  let g := set_fallTimer 0%float g in
  let g := set_currentPosition
             (mkPosition (gridWidth g / 2) (gridHeight g - 1)) g in
  let g :=
    match currentPiece g with
    | Some p =>
        set_currentPosition
          (mkPosition (x (currentPosition g))
                      (gridHeight g - 1 - maxY_of (shape p))) g
    | None => g
    end in
  if isValidMove g (currentPiece g) (currentPosition g) then g
  else set_currentPiece None (set_gameState GAME_OVER g).

Definition generateRandomShape (rnd : RandomSource) : Shape * RandomSource :=
  let (randomIndex, rnd') := Math_random_index rnd in
  (SHAPES_at randomIndex, rnd').

(** [nextShapes.splice(index, 1)[0]] is the element read at [index];
    [delete] is what remains in the array. *)
Definition selectShape (index : Z) (g : Game) (rnd : RandomSource)
  : Game * RandomSource :=
  let q := nextShapes g in
  let invalid :=
    (index <? 0) || (Z.of_nat (length q) <=? index)
    || negb (bool_decide (is_Some (array_get q index))) in
  let index := if invalid then 0 else index in
  if invalid && negb (bool_decide (is_Some (array_get q index))) then (g, rnd)
  else
    let g := set_currentPiece (array_get q index) g in
    let g := set_nextShapes (delete (Z.to_nat index) q) g in
    let (fresh, rnd') := generateRandomShape rnd in
    let g := set_nextShapes (nextShapes g ++ [fresh]) g in
    (spawnNewPiece g, rnd').

(** ** Movement *)

Definition playing_with_piece (g : Game) : bool :=
  match gameState g, currentPiece g with
  | PLAYING, Some _ => true
  | _, _ => false
  end.

Definition moveHorizontal (direction : Z) (g : Game) : Game :=
  if negb (playing_with_piece g) then g
  else
    let newPosition :=
      mkPosition (x (currentPosition g) + direction) (y (currentPosition g)) in
    if isValidMove g (currentPiece g) newPosition
    then set_fallTimer 0%float (set_currentPosition newPosition g)
    else g.

Definition startDropping (g : Game) : Game :=
  if playing_with_piece g then set_isDropping true g else g.

(** ** Line clearing *)

(** The [for] loop of [clearLines], at the test [y < this.gridHeight];
    [count] is [linesClearedCount].  A removal leaves [y] where it is
    ([y--] followed by [y++]). *)
Fixpoint clearLines_loop (fuel : nat) (W H : Z) (y count : Z) (b : list Row)
  : result (Z * list Row) :=
  match fuel with
  | O => OutOfFuel
  | S fuel =>
      if y <? H then
        match array_get b y with
        | None => Throw TypeError
        | Some row =>
            if row_full row then
              fresh ← Array_fill0 W;
              clearLines_loop fuel W H y (count + 1)
                (delete (Z.to_nat y) b ++ [fresh])
            else clearLines_loop fuel W H (y + 1) count b
        end
      else Ok (count, b)
  end.

(** Every iteration either advances [y] or removes a row, and a loop that
    ends removes no row it appended: this many iterations suffice. *)
Definition clearLines_budget (H : Z) (b : list Row) : nat :=
  S (Z.to_nat H + length b).

(** [Math.max(a, b)] for [a] other than a zero. *)
Definition Math_max (a b : float) : float :=
  if PrimFloat.is_nan a || PrimFloat.is_nan b then PrimFloat.nan
  else if PrimFloat.ltb a b then b else a.

(** [SCORE_PER_LINE[n] * level]; [undefined * level] is [NaN]. *)
Definition line_score (n lvl : Z) : jsnum :=
  match array_get SCORE_PER_LINE n with
  | Some s => Num (s * lvl)
  | None => NaN
  end.

Section Engine.

(** [Math.pow(base, exponent)] at an integer exponent. *)
Variable Math_pow : float -> Z -> float.

Definition clearLines (g : Game) : result Game :=
  '(linesClearedCount, b) ←
    clearLines_loop (clearLines_budget (gridHeight g) (board g))
      (gridWidth g) (gridHeight g) 0 0 (board g);
  let g := set_board b g in
  if 0 <? linesClearedCount then
    let newScore := jsnum_add (score g) (line_score linesClearedCount (level g)) in
    let newLines := linesCleared g + linesClearedCount in
    let newLevel := newLines / LEVEL_UP_LINES + 1 in
    if level g <? newLevel then
      Ok (mkGame (gridWidth g) (gridHeight g) (board g) (currentPiece g)
            (currentPosition g) (nextShapes g) newScore newLines newLevel
            (fallTimer g)
            (Math_max FAST_FALL_SPEED
               (BASE_FALL_SPEED * Math_pow SPEED_INCREASE_FACTOR (newLevel - 1))%float)
            (isDropping g) (gameState g))
    else
      Ok (mkGame (gridWidth g) (gridHeight g) (board g) (currentPiece g)
            (currentPosition g) (nextShapes g) newScore newLines (level g)
            (fallTimer g) (currentFallSpeed g) (isDropping g) (gameState g))
  else Ok g.

(** The [forEach] of [placePiece]: one board write per offset that lies
    on the grid. *)
Fixpoint writeCells (W H : Z) (pos : Position) (value : Z)
  (offsets : list (Z * Z)) (b : list Row) : result (list Row) :=
  match offsets with
  | [] => Ok b
  | (dx, dy) :: rest =>
      let boardX := x pos + dx in
      let boardY := y pos + dy in
      if (0 <=? boardY) && (boardY <? H) && (0 <=? boardX) && (boardX <? W) then
        match b !! Z.to_nat boardY with
        | Some row =>
            writeCells W H pos value rest
              (<[Z.to_nat boardY := row_set row (Z.to_nat boardX) value]> b)
        | None => Throw TypeError
        end
      else writeCells W H pos value rest b
  end.

Definition placePiece (g : Game) : result Game :=
  match currentPiece g with
  | None => Ok g
  | Some p =>
      b ← writeCells (gridWidth g) (gridHeight g) (currentPosition g)
            (colorIndex p + 1) (shape p) (board g);
      g ← clearLines (set_board b g);
      Ok (set_isDropping false (set_currentPiece None g))
  end.

Definition moveDown (g : Game) : result Game :=
  if negb (playing_with_piece g) then Ok g
  else
    let newPosition :=
      mkPosition (x (currentPosition g)) (y (currentPosition g) - 1) in
    g ← (if isValidMove g (currentPiece g) newPosition
         then Ok (set_currentPosition newPosition g)
         else g ← placePiece g; Ok (set_currentPiece None g));
    Ok (set_fallTimer 0%float g).

(** ** The per-frame entry point *)

Record Inputs := mkInputs {
  moveLeft : bool;
  moveRight : bool;
  drop : bool;
  inputSelectShape : option Z   (* [inputs.selectShape], [None] for [null] *)
}.

Definition update (deltaTime : float) (inputs : Inputs) (g : Game)
  (rnd : RandomSource) : result (Game * RandomSource) :=
  match gameState g with
  | GAME_OVER => Ok (g, rnd)
  | PLAYING =>
      match currentPiece g, inputSelectShape inputs with
      | None, Some index => Ok (selectShape index g rnd)
      | None, None => Ok (g, rnd)
      | Some _, _ =>
          let g := if moveLeft inputs then moveHorizontal (-1) g else g in
          let g := if moveRight inputs then moveHorizontal 1 g else g in
          let g := if drop inputs then startDropping g else g in
          let g := set_fallTimer (fallTimer g + deltaTime)%float g in
          let speed :=
            if isDropping g then FAST_FALL_SPEED else currentFallSpeed g in
          if PrimFloat.leb speed (fallTimer g) then
            g ← moveDown g; Ok (g, rnd)
          else Ok (g, rnd)
      end
  end.

(** ** Construction and initialisation *)

Record GridConfig := mkGridConfig {
  width : option Z;    (* [None] for a missing field *)
  height : option Z
}.

(** [value || fallback] on an integer-or-missing value. *)
Definition or_default (v : option Z) (fallback : Z) : Z :=
  match v with
  | Some n => if n =? 0 then fallback else n
  | None => fallback
  end.

Definition constructor (gridConfig : GridConfig) : Game :=
  mkGame (or_default (width gridConfig) GRID_WIDTH)
         (or_default (height gridConfig) GRID_HEIGHT)
         [] None (mkPosition 0 0) [] (Num 0) 0 1 0%float BASE_FALL_SPEED
         false PLAYING.

(** [Array.from({ length: h }, () => Array(w).fill(0))]: the callback runs
    once per row, so a bad [w] only throws when there is a row to make. *)
Definition emptyBoard (w h : Z) : result (list Row) :=
  if h <=? 0 then Ok []
  else row ← Array_fill0 w; Ok (replicate (Z.to_nat h) row).

Fixpoint generateShapes (n : nat) (q : list Shape) (rnd : RandomSource)
  : list Shape * RandomSource :=
  match n with
  | O => (q, rnd)
  | S n =>
      let (s, rnd') := generateRandomShape rnd in
      generateShapes n (q ++ [s]) rnd'
  end.

Definition init (g : Game) (rnd : RandomSource) : result (Game * RandomSource) :=
  b ← emptyBoard (gridWidth g) (gridHeight g);
  let (q, rnd') := generateShapes PREVIEW_COUNT [] rnd in
  let g := mkGame (gridWidth g) (gridHeight g) b (currentPiece g)
             (currentPosition g) q (Num 0) 0 1 0%float BASE_FALL_SPEED
             false PLAYING in
  Ok (selectShape 0 g rnd').

(** ** Calls a client can make on an initialised engine *)

Inductive Op :=
| OpSelectShape (index : Z)
| OpMoveHorizontal (direction : Z)
| OpMoveDown
| OpStartDropping
| OpPlacePiece
| OpClearLines
| OpUpdate (deltaTime : float) (inputs : Inputs).

Definition step (op : Op) (g : Game) (rnd : RandomSource)
  : result (Game * RandomSource) :=
  match op with
  | OpSelectShape index => Ok (selectShape index g rnd)
  | OpMoveHorizontal direction => Ok (moveHorizontal direction g, rnd)
  | OpMoveDown => g ← moveDown g; Ok (g, rnd)
  | OpStartDropping => Ok (startDropping g, rnd)
  | OpPlacePiece => g ← placePiece g; Ok (g, rnd)
  | OpClearLines => g ← clearLines g; Ok (g, rnd)
  | OpUpdate deltaTime inputs => update deltaTime inputs g rnd
  end.

Fixpoint run (ops : list Op) (g : Game) (rnd : RandomSource)
  : result (Game * RandomSource) :=
  match ops with
  | [] => Ok (g, rnd)
  | op :: ops => '(g, rnd) ← step op g rnd; run ops g rnd
  end.

End Engine.

(** ** Concrete instances used to evaluate the engine *)

(** A stand-in for [Math.pow] at a non-negative integer exponent, by
    repeated multiplication. *)
Definition pow_by_mul (base : float) (n : Z) : float :=
  Nat.iter (Z.to_nat n) (fun acc => (acc * base)%float) 1%float.

(** A random source that always answers the same index. *)
Definition rnd_const (i : ShapeIndex) : RandomSource := fun _ => i.

Definition noInputs : Inputs := mkInputs false false false None.

(** The engine as [new Game({})] followed by [init()] leaves it, squares
    only. *)
Definition defaultGame : result (Game * RandomSource) :=
  init (constructor (mkGridConfig None None)) (rnd_const Ix1).

(** An O piece resting on the floor of a board whose two bottom rows lack
    only the two cells that it fills, under a third, half-filled row. *)
Definition gapRow : Row := replicate 4 (Some 1) ++ [Some 0; Some 0] ++ replicate 4 (Some 1).
Definition halfRow : Row := replicate 5 (Some 3) ++ replicate 5 (Some 0).

Definition lockingGame : Game :=
  mkGame 10 20
    ([gapRow; gapRow; halfRow] ++ replicate 17 (replicate 10 (Some 0)))
    (Some (SHAPES_at Ix1)) (mkPosition 4 0)
    [SHAPES_at Ix0; SHAPES_at Ix2; SHAPES_at Ix3]
    (Num 700) 19 2 0%float BASE_FALL_SPEED true PLAYING.

(** The same board once the piece is written, before the scan. *)
Definition twoFullRowsGame : Game :=
  set_board
    ([replicate 4 (Some 1) ++ [Some 2; Some 2] ++ replicate 4 (Some 1);
      replicate 4 (Some 1) ++ [Some 2; Some 2] ++ replicate 4 (Some 1);
      halfRow] ++ replicate 17 (replicate 10 (Some 0)))
    lockingGame.

(** The same engine once the piece has locked: no active piece, waiting
    for a selection. *)
Definition awaitingGame : Game :=
  set_isDropping false (set_currentPiece None twoFullRowsGame).

Definition selectFirst : Inputs := mkInputs false false false (Some 0).

(** An engine whose left half is stacked to the top, after a spawn that
    reached into it has failed. *)
Definition overGame : Game :=
  mkGame 10 20 (replicate 20 halfRow) None (mkPosition 5 18)
    [SHAPES_at Ix0; SHAPES_at Ix2; SHAPES_at Ix3]
    (Num 0) 0 1 0%float BASE_FALL_SPEED false GAME_OVER.

(** A default-sized engine and a short session on it. *)
Definition sampleConfig : GridConfig := mkGridConfig None None.

Definition sampleOps : list Op :=
  [OpMoveHorizontal (-1); OpUpdate 0.9%float (mkInputs false true true None);
   OpMoveDown; OpUpdate 0.06%float noInputs; OpMoveDown; OpSelectShape 7].

(** The T piece in mid-air over the half-built board. *)
Definition hoveringGame : Game :=
  set_currentPosition (mkPosition 5 9)
    (set_currentPiece (Some (SHAPES_at Ix2)) lockingGame).

(** * Properties *)

(** ** Well-formed boards *)

Definition valid_width (W : Z) : Prop := 0 < W <= 4294967295.

Definition board_dims (W H : Z) (b : list Row) : Prop :=
  Z.of_nat (length b) = H /\ Forall (fun row => Z.of_nat (length row) = W) b.

Definition wf (g : Game) : Prop :=
  valid_width (gridWidth g) /\ board_dims (gridWidth g) (gridHeight g) (board g).

(** The cell at column [cx] of row [cy], [None] off the stored board. *)
Definition cell_at (g : Game) (cx cy : Z) : option Z :=
  match array_get (board g) cy with
  | Some row => row_get row cx
  | None => None
  end.

(** The rule for one offset as the specification words it: the column on
    the grid, the row not negative, and a row below the top on an empty
    cell. *)
Definition offset_allowed (g : Game) (pos : Position) (d : Z * Z) : Prop :=
  let cx := x pos + fst d in
  let cy := y pos + snd d in
  0 <= cx < gridWidth g /\ 0 <= cy
  /\ (cy < gridHeight g -> cell_at g cx cy = Some 0).

(** The engine state of an outcome, the random source left aside. *)
Definition game_of (r : result (Game * RandomSource)) : result Game :=
  match r with
  | Ok (g, _) => Ok g
  | Throw e => Throw e
  | OutOfFuel => OutOfFuel
  end.

(** Two outcomes that agree on the engine state and on every later
    random draw. *)
Definition same_outcome (r1 r2 : result (Game * RandomSource)) : Prop :=
  match r1, r2 with
  | Ok (g1, rnd1), Ok (g2, rnd2) => g1 = g2 /\ forall n, rnd1 n = rnd2 n
  | Throw e1, Throw e2 => e1 = e2
  | OutOfFuel, OutOfFuel => True
  | _, _ => False
  end.

(** The calls named by the terminal-state property. *)
Definition is_move_or_update (op : Op) : Prop :=
  match op with
  | OpMoveHorizontal _ | OpMoveDown | OpUpdate _ _ => True
  | _ => False
  end.

(** The largest [dy] among the offsets. *)
Definition max_dy (offsets : list (Z * Z)) : Z :=
  match offsets with
  | [] => 0
  | d :: rest => fold_right (fun d m => Z.max (snd d) m) (snd d) rest
  end.

(** Where [spawnNewPiece] puts the pivot of a piece. *)
Definition spawnPosition (g : Game) (p : Shape) : Position :=
  mkPosition (gridWidth g / 2) (gridHeight g - 1 - max_dy (shape p)).

Definition emptyRow (W : Z) : Row := replicate (Z.to_nat W) (Some 0).

Definition count_full (b : list Row) : nat := length (List.filter row_full b).

Definition keep_open (b : list Row) : list Row :=
  List.filter (fun row => negb (row_full row)) b.

(** The full rows that have a row that is not full somewhere after them:
    the rows a scan can still remove when the rows it appends are full
    themselves (width 0). *)
Fixpoint live_full (rest : list Row) : nat :=
  match rest with
  | [] => O
  | row :: rest' =>
      if row_full row && forallb row_full rest' then O
      else ((if row_full row then 1 else 0) + live_full rest')%nat
  end.

(** A bound on the removals left to a scan that ends, by what
    [Array(width).fill(0)] makes. *)
Definition scan_measure (W : Z) (rest : list Row) : nat :=
  match Array_fill0 W with
  | Ok fresh => if row_full fresh then live_full rest else count_full rest
  | _ => O
  end.

(** ** Invariants of an initialised engine *)

(** The fields that only initialisation and locking change. *)
Definition same_core (g g' : Game) : Prop :=
  board g' = board g /\ gridWidth g' = gridWidth g
  /\ gridHeight g' = gridHeight g /\ nextShapes g' = nextShapes g
  /\ score g' = score g /\ linesCleared g' = linesCleared g
  /\ level g' = level g.

Definition core_inv (g : Game) : Prop :=
  wf g
  /\ count_full (board g) = O
  /\ Forall (fun s => In s SHAPES) (nextShapes g)
  /\ (exists s, score g = Num s /\ 0 <= s)
  /\ 0 <= linesCleared g
  /\ level g = linesCleared g / LEVEL_UP_LINES + 1.

(** The active piece, if any, is a catalog shape at a position that
    [isValidMove] accepts, with every cell below the top of the grid. *)
Definition piece_inv (g : Game) : Prop :=
  forall p, currentPiece g = Some p ->
    In p SHAPES
    /\ isValidMove g (Some p) (currentPosition g) = true
    /\ Forall (fun d => y (currentPosition g) + snd d < gridHeight g) (shape p).

Definition engine_inv (g : Game) : Prop := core_inv g /\ piece_inv g.

(** What a selection leaves alone: everything of [same_core] but the
    preview queue. *)
Definition same_core_but_queue (g g' : Game) : Prop :=
  board g' = board g /\ gridWidth g' = gridWidth g
  /\ gridHeight g' = gridHeight g /\ score g' = score g
  /\ linesCleared g' = linesCleared g /\ level g' = level g.

(** The score and the line counter of [g'] are at least those of [g],
    the scores being numbers. *)
Definition progress_le (g g' : Game) : Prop :=
  (exists s s', score g = Num s /\ score g' = Num s' /\ s <= s')
  /\ linesCleared g <= linesCleared g'.

(** A configuration that [init] accepts and that leaves a board. *)
Definition valid_config (cfg : GridConfig) : Prop :=
  valid_width (gridWidth (constructor cfg)) /\ 0 < gridHeight (constructor cfg).

(** The cell at column [cx] of row [cy] of a board. *)
Definition board_cell (b : list Row) (cx cy : Z) : option Z :=
  match array_get b cy with
  | Some row => row_get row cx
  | None => None
  end.

(** Whether a piece of the given offsets at [pos] has a cell at
    ([cx], [cy]). *)
Definition covers (pos : Position) (offsets : list (Z * Z)) (cx cy : Z) : bool :=
  existsb (fun d => (x pos + fst d =? cx) && (y pos + snd d =? cy)) offsets.

(** ** The cube-counting quiz ([CubeCounterGame]) *)

Record PileCounts := mkPileCounts { pile00 : Z; pile01 : Z; pile10 : Z }.

(** [Math.ceil(a / b)] for integers [a] and [b > 0]. *)
Definition Math_ceil_div (a b : Z) : Z := - ((- a) / b).

(** The inner loop of [generateLevel]: the first [first] in
    [min, p00) whose complement [second] lies in [min, p00). *)
Definition findSecond (L min p00 : Z) : option (Z * Z) :=
  let remaining := L - p00 in
  match List.find
          (fun first =>
             let second := remaining - first in
             (min <=? second) && (second <? p00))
          (seqZ min (p00 - min)) with
  | Some first => Some (first, remaining - first)
  | None => None
  end.

(** The outer loop, over the values that [p00] takes in turn. *)
Fixpoint findDistribution (L min : Z) (candidates : list Z)
  : option (Z * Z * Z) :=
  match candidates with
  | [] => None
  | p00 :: rest =>
      match findSecond L min p00 with
      | Some (p01, p10) => Some (p00, p01, p10)
      | None => findDistribution L min rest
      end
  end.

(** The values of [p00] in [for (p00 = max; p00 >= min + 1; p00--)]. *)
Definition p00_candidates (min max : Z) : list Z :=
  reverse (seqZ (min + 1) (max - min)).

(** The [pileCounts] that [generateLevel] sets for level [L]. *)
Definition generatePiles (L : Z) : PileCounts :=
  if L <? 6 then mkPileCounts L 0 0
  else
    let min := Math_ceil_div L 6 in
    let max := (L * 2) / 3 in
    match findDistribution L min (p00_candidates min max) with
    | Some (p00, p01, p10) => mkPileCounts p00 p01 p10
    | None => mkPileCounts L 0 0
    end.

(** The successive values of [Math.floor(Math.random() * n)], by call and
    by [n]. *)
Definition IntSource := nat -> Z -> Z.

Definition Math_random_below (n : Z) (rnd : IntSource) : Z * IntSource :=
  (rnd O n, fun k => rnd (S k)).

(** What [Math.random] in [0, 1) guarantees of [Math.floor(Math.random() * n)]. *)
Definition in_unit_interval (rnd : IntSource) : Prop :=
  forall k n, 0 < n -> 0 <= rnd k n < n.

(** [set.add(v)] on a [Set] kept in insertion order. *)
Definition Set_add (v : Z) (set : list Z) : list Z :=
  if existsb (Z.eqb v) set then set else set ++ [v].

(** The filling loop of [generateOptions], at the test [options.size < 4];
    [i > 10] breaks in the twelfth iteration at the latest. *)
Fixpoint fillOptions (fuel : nat) (i startValue : Z) (options : list Z)
  : list Z :=
  match fuel with
  | O => options
  | S fuel =>
      if Z.of_nat (length options) <? 4 then
        let potentialOption := startValue + i in
        let options :=
          if 0 <? potentialOption then Set_add potentialOption options
          else options in
        if 10 <? i then options
        else fillOptions fuel (i + 1) startValue options
      else options
  end.

(** [[a[i], a[j]] = [a[j], a[i]]], for indices inside the array: the
    shuffle only swaps at [j <= i < a.length]. *)
Definition swap (a : list Z) (i j : nat) : list Z :=
  match a !! i, a !! j with
  | Some ai, Some aj => <[j := ai]> (<[i := aj]> a)
  | _, _ => a
  end.

(** The shuffle loop, [i] running down to 1. *)
Fixpoint shuffle (i : nat) (a : list Z) (rnd : IntSource) : list Z * IntSource :=
  match i with
  | O => (a, rnd)
  | S i' =>
      let (j, rnd') := Math_random_below (Z.of_nat i + 1) rnd in
      shuffle i' (swap a i (Z.to_nat j)) rnd'
  end.

Definition generateOptions (correctAnswer : Z) (rnd : IntSource)
  : list Z * IntSource :=
  let options := [correctAnswer] in
  let (r, rnd) := Math_random_below 3 rnd in
  let startValue := Z.max 1 (correctAnswer - r) in
  let optionsArray := fillOptions 12 0 startValue options in
  shuffle (length optionsArray - 1) optionsArray rnd.

Record QuizLevel := mkQuizLevel {
  pileCounts : PileCounts;
  correctAnswer : Z;
  options : list Z
}.

Definition generateLevel (L : Z) (rnd : IntSource) : QuizLevel * IntSource :=
  let (opts, rnd') := generateOptions L rnd in
  (mkQuizLevel (generatePiles L) L opts, rnd').

(** ** Keyboard input ([InputManager]) *)

Record KeyEvent := mkKeyEvent {
  ctrlKey : bool;
  altKey : bool;
  metaKey : bool;
  key : string
}.

(** [resetFrameState]: a fresh [frameInputs] object. *)
Definition resetFrameState : Inputs := mkInputs false false false None.

(** [_handleKeyDown]: the new [frameInputs], and whether the key was
    handled ([event.preventDefault()] is called). *)
Definition handleKeyDown (event : KeyEvent) (frameInputs : Inputs)
  : Inputs * bool :=
  if ctrlKey event || altKey event || metaKey event then (frameInputs, false)
  else
    let k := key event in
    if String.eqb k "ArrowLeft" || String.eqb k "a" then
      (mkInputs true (moveRight frameInputs) (drop frameInputs)
         (inputSelectShape frameInputs), true)
    else if String.eqb k "ArrowRight" || String.eqb k "d" then
      (mkInputs (moveLeft frameInputs) true (drop frameInputs)
         (inputSelectShape frameInputs), true)
    else if String.eqb k "ArrowDown" || String.eqb k " " || String.eqb k "s" then
      (mkInputs (moveLeft frameInputs) (moveRight frameInputs) true
         (inputSelectShape frameInputs), true)
    else if String.eqb k "1" then
      (mkInputs (moveLeft frameInputs) (moveRight frameInputs)
         (drop frameInputs) (Some 0), true)
    else if String.eqb k "2" then
      (mkInputs (moveLeft frameInputs) (moveRight frameInputs)
         (drop frameInputs) (Some 1), true)
    else if String.eqb k "3" then
      (mkInputs (moveLeft frameInputs) (moveRight frameInputs)
         (drop frameInputs) (Some 2), true)
    else (frameInputs, false).

(** The [frameInputs] after the key events of one frame. *)
Definition keysOfFrame (events : list KeyEvent) : Inputs :=
  fold_left (fun frameInputs event => fst (handleKeyDown event frameInputs))
    events resetFrameState.

(** A key event without Ctrl, Alt or Meta whose key is one of [keys]. *)
Definition pressed (keys : list string) (event : KeyEvent) : bool :=
  negb (ctrlKey event || altKey event || metaKey event)
  && existsb (String.eqb (key event)) keys.

Lemma Array_fill0_ok W : valid_width W -> Array_fill0 W = Ok (emptyRow W).
Proof.
  intros [Hlo Hhi]. unfold Array_fill0.
  destruct (W <? 0) eqn:E1; [apply Z.ltb_lt in E1; lia|].
  destruct (4294967295 <? W) eqn:E2; [apply Z.ltb_lt in E2; lia|].
  reflexivity.
Qed.

Lemma emptyRow_open W : 0 < W -> row_full (emptyRow W) = false.
Proof.
  intros HW. unfold emptyRow.
  destruct (Z.to_nat W) as [|n] eqn:E; [lia|]. reflexivity.
Qed.

Lemma emptyRow_length W : 0 <= W -> Z.of_nat (length (emptyRow W)) = W.
Proof. intros HW. unfold emptyRow. rewrite length_replicate. lia. Qed.

Lemma count_full_app b1 b2 :
  count_full (b1 ++ b2) = (count_full b1 + count_full b2)%nat.
Proof. unfold count_full. by rewrite List.filter_app, length_app. Qed.

Lemma keep_open_app b1 b2 : keep_open (b1 ++ b2) = keep_open b1 ++ keep_open b2.
Proof. apply List.filter_app. Qed.

Lemma array_get_middle {A} (pre : list A) (a : A) (rest : list A) (i : Z) :
  0 <= i -> length pre = Z.to_nat i -> array_get (pre ++ a :: rest) i = Some a.
Proof.
  intros Hi Hlen. unfold array_get.
  destruct (i <? 0) eqn:E; [apply Z.ltb_lt in E; lia|].
  rewrite <- Hlen. apply list_lookup_middle. reflexivity.
Qed.

(** The scan from index [y]: the rows below [y] stay, the full rows from
    [y] on are dropped and as many empty rows are appended. *)
Lemma clearLines_loop_spec W H fuel :
  valid_width W ->
  forall y count pre rest,
    0 <= y -> length pre = Z.to_nat y ->
    Z.of_nat (length (pre ++ rest)) = H ->
    (length rest + count_full rest < fuel)%nat ->
    clearLines_loop fuel W H y count (pre ++ rest)
    = Ok (count + Z.of_nat (count_full rest),
          pre ++ keep_open rest ++ replicate (count_full rest) (emptyRow W)).
Proof.
  intros HW. induction fuel as [|fuel IH]; intros y count pre rest Hy Hpre HH Hfuel.
  - lia.
  - simpl. rewrite length_app in HH.
    destruct rest as [|row rest].
    + simpl in HH. destruct (y <? H) eqn:E; [apply Z.ltb_lt in E; lia|].
      simpl. rewrite Z.add_0_r. reflexivity.
    + simpl in HH. destruct (y <? H) eqn:E; [|apply Z.ltb_ge in E; lia].
      rewrite array_get_middle by done.
      destruct (row_full row) eqn:Hfull.
      * rewrite (Array_fill0_ok W HW). simpl.
        rewrite <- Hpre, delete_middle, <- app_assoc.
        assert (Hc : count_full (rest ++ [emptyRow W]) = count_full rest).
        { rewrite count_full_app. unfold count_full at 2. simpl.
          rewrite emptyRow_open by (destruct HW; lia). simpl. lia. }
        assert (Hrow : count_full (row :: rest) = S (count_full rest)).
        { unfold count_full. simpl. by rewrite Hfull. }
        rewrite IH; try done.
        -- rewrite Hc, Hrow, keep_open_app.
           unfold keep_open at 2 3. simpl.
           rewrite emptyRow_open by (destruct HW; lia). rewrite Hfull. simpl.
           rewrite <- !app_assoc. simpl.
           replace (count + 1 + Z.of_nat (count_full rest))
             with (count + Z.of_nat (S (count_full rest))) by lia.
           reflexivity.
        -- rewrite !length_app. simpl. lia.
        -- rewrite Hc, length_app. simpl. rewrite Hrow in Hfuel. simpl in Hfuel. lia.
      * assert (Hrow : count_full (row :: rest) = count_full rest).
        { unfold count_full. simpl. by rewrite Hfull. }
        replace (pre ++ row :: rest) with ((pre ++ [row]) ++ rest)
          by (by rewrite <- app_assoc).
        rewrite IH.
        -- rewrite Hrow. unfold keep_open at 2. simpl. rewrite Hfull. simpl.
           rewrite <- app_assoc. reflexivity.
        -- lia.
        -- rewrite length_app. simpl. lia.
        -- rewrite !length_app. simpl. lia.
        -- rewrite Hrow in Hfuel. simpl in Hfuel. lia.
Qed.

(** More fuel never changes the outcome of a scan that has one. *)
Lemma clearLines_loop_more_fuel W H fuel :
  forall extra y count b,
    clearLines_loop fuel W H y count b <> OutOfFuel ->
    clearLines_loop (fuel + extra) W H y count b
    = clearLines_loop fuel W H y count b.
Proof.
  induction fuel as [|fuel IH]; intros extra y count b Hdone; [done|].
  simpl in *. destruct (y <? H); [|done].
  destruct (array_get b y) as [row|]; [|done].
  destruct (row_full row); [|by apply IH].
  destruct (Array_fill0 W) as [fresh| |]; simpl in *; [by apply IH|done|done].
Qed.

(** ** The budget of the scan is enough whenever the loop ends *)

Lemma live_full_snoc rest fresh :
  row_full fresh = true -> live_full (rest ++ [fresh]) = live_full rest.
Proof.
  intros Hfresh. induction rest as [|row rest IH]; simpl.
  - by rewrite Hfresh.
  - rewrite IH, List.forallb_app. simpl. rewrite Hfresh. simpl.
    by rewrite andb_true_r.
Qed.

Lemma live_full_le rest : (live_full rest <= length rest)%nat.
Proof.
  induction rest as [|row rest IH]; simpl; [lia|].
  destruct (row_full row && forallb row_full rest); [lia|].
  destruct (row_full row); lia.
Qed.

Lemma count_full_le rest : (count_full rest <= length rest)%nat.
Proof. apply List.filter_length_le. Qed.

Lemma scan_measure_le W rest : (scan_measure W rest <= length rest)%nat.
Proof.
  unfold scan_measure. destruct (Array_fill0 W) as [fresh| |]; try lia.
  destruct (row_full fresh); [apply live_full_le|apply count_full_le].
Qed.

(** With full rows appended, a scan standing on rows that are all full
    removes and appends for ever. *)
Lemma clearLines_loop_stuck W H fresh fuel :
  Array_fill0 W = Ok fresh -> row_full fresh = true ->
  forall y count pre row rest,
    0 <= y < H -> length pre = Z.to_nat y ->
    forallb row_full (row :: rest) = true ->
    clearLines_loop fuel W H y count (pre ++ row :: rest) = OutOfFuel.
Proof.
  intros Hfill Hfresh.
  induction fuel as [|fuel IH]; intros y count pre row rest Hy Hpre Hall; [done|].
  simpl. destruct (y <? H) eqn:E; [|apply Z.ltb_ge in E; lia].
  rewrite array_get_middle by (done || lia).
  simpl in Hall. apply andb_prop in Hall as [Hrow Hrest].
  rewrite Hrow, Hfill. simpl.
  rewrite <- Hpre, delete_middle, <- app_assoc.
  destruct rest as [|row' rest]; simpl.
  - apply IH; [done|done|]. simpl. by rewrite Hfresh.
  - apply IH; [done|done|].
    simpl in *. apply andb_prop in Hrest as [-> Hrest]. simpl.
    rewrite List.forallb_app, Hrest. simpl. by rewrite Hfresh.
Qed.

Lemma clearLines_loop_bounded W H fuel :
  forall y count pre rest fuel',
    0 <= y -> length pre = Z.to_nat y ->
    clearLines_loop fuel W H y count (pre ++ rest) <> OutOfFuel ->
    (Z.to_nat (H - y) + scan_measure W rest < fuel')%nat ->
    clearLines_loop fuel' W H y count (pre ++ rest)
    = clearLines_loop fuel W H y count (pre ++ rest).
Proof.
  induction fuel as [|fuel IH]; intros y count pre rest fuel' Hy Hpre Hdone Hfuel;
    [done|].
  destruct fuel' as [|fuel']; [lia|].
  simpl in *. destruct (y <? H) eqn:E; [|done]. apply Z.ltb_lt in E.
  destruct rest as [|row rest].
  { rewrite app_nil_r. unfold array_get.
    destruct (y <? 0); [done|]. by rewrite lookup_ge_None_2 by lia. }
  rewrite array_get_middle in * by done.
  destruct (row_full row) eqn:Hrow.
  - destruct (Array_fill0 W) as [fresh| |] eqn:Hfill; [|done|done].
    simpl in *. rewrite <- Hpre, delete_middle, <- app_assoc in *.
    apply IH; try done.
    unfold scan_measure in *. rewrite Hfill in *.
    destruct (row_full fresh) eqn:Hfresh.
    + rewrite live_full_snoc by done.
      destruct (forallb row_full rest) eqn:Hall.
      * exfalso. apply Hdone.
        rewrite app_assoc.
        destruct rest as [|row' rest]; simpl.
        -- rewrite app_nil_r.
           apply (clearLines_loop_stuck W H fresh fuel Hfill Hfresh y _ pre fresh []);
             [lia|done|]. simpl. by rewrite Hfresh.
        -- rewrite <- app_assoc. simpl.
           apply (clearLines_loop_stuck W H fresh fuel Hfill Hfresh y _ pre row'
                    (rest ++ [fresh])); [lia|done|].
           simpl in *. apply andb_prop in Hall as [-> Hall]. simpl.
           rewrite List.forallb_app, Hall. simpl. by rewrite Hfresh.
      * simpl in Hfuel. rewrite Hrow, Hall in Hfuel. simpl in Hfuel. lia.
    + rewrite count_full_app. unfold count_full in *. simpl in *.
      rewrite Hrow in Hfuel. rewrite Hfresh. simpl in *. lia.
  - replace (pre ++ row :: rest) with ((pre ++ [row]) ++ rest) in *
      by (by rewrite <- app_assoc).
    apply IH; try done; [lia|rewrite length_app; simpl; lia|].
    assert (Hm : (scan_measure W rest <= scan_measure W (row :: rest))%nat).
    { unfold scan_measure. destruct (Array_fill0 W) as [fresh| |]; try lia.
      destruct (row_full fresh); simpl.
      - rewrite Hrow. simpl. lia.
      - unfold count_full. simpl. rewrite Hrow. lia. }
    lia.
Qed.

(** If the loop of [clearLines] ends at all, it ends within the budget
    that [clearLines] gives it, with the same outcome. *)
Lemma clearLines_budget_suffices W H b fuel :
  clearLines_loop fuel W H 0 0 b <> OutOfFuel ->
  clearLines_loop (clearLines_budget H b) W H 0 0 b
  = clearLines_loop fuel W H 0 0 b.
Proof.
  intros Hdone.
  apply (clearLines_loop_bounded W H fuel 0 0 [] b); try done.
  unfold clearLines_budget. rewrite Z.sub_0_r.
  pose proof (scan_measure_le W b). lia.
Qed.

Lemma board_dims_cleared W b :
  0 <= W -> board_dims W (Z.of_nat (length b)) b ->
  board_dims W (Z.of_nat (length b))
    (keep_open b ++ replicate (count_full b) (emptyRow W)).
Proof.
  intros HW [_ Hrows]. split.
  - f_equal. rewrite length_app, length_replicate.
    unfold keep_open, count_full. clear Hrows.
    induction b as [|row b IHb]; simpl; [done|].
    destruct (row_full row); simpl; lia.
  - apply Forall_app. split.
    + unfold keep_open. clear -Hrows.
      induction Hrows as [|row b Hrow _ IHb]; simpl; [constructor|].
      destruct (row_full row); simpl; [done|by constructor].
    + apply Forall_replicate. by apply emptyRow_length.
Qed.

Lemma keep_open_all_open b : Forall (fun row => row_full row = false) (keep_open b).
Proof.
  unfold keep_open. induction b as [|row b IHb]; simpl; [constructor|].
  destruct (row_full row) eqn:E; simpl; [done|by constructor].
Qed.

Section Properties.

Variable Math_pow : float -> Z -> float.

(** On a well-formed engine the scan of [clearLines] ends within its
    budget, having dropped exactly the full rows. *)
Lemma clearLines_scan g :
  wf g ->
  clearLines_loop (clearLines_budget (gridHeight g) (board g))
    (gridWidth g) (gridHeight g) 0 0 (board g)
  = Ok (Z.of_nat (count_full (board g)),
        keep_open (board g)
        ++ replicate (count_full (board g)) (emptyRow (gridWidth g))).
Proof.
  intros [HW [HH _]].
  pose proof (clearLines_loop_spec (gridWidth g) (gridHeight g)
                (clearLines_budget (gridHeight g) (board g)) HW
                0 0 [] (board g)) as Hspec.
  simpl in Hspec. apply Hspec; try done.
  unfold clearLines_budget, count_full.
  pose proof (List.filter_length_le row_full (board g)). lia.
Qed.

(** Any larger amount of fuel gives the scan the same outcome. *)
Lemma clearLines_scan_fuel g extra :
  wf g ->
  clearLines_loop (clearLines_budget (gridHeight g) (board g) + extra)
    (gridWidth g) (gridHeight g) 0 0 (board g)
  = clearLines_loop (clearLines_budget (gridHeight g) (board g))
      (gridWidth g) (gridHeight g) 0 0 (board g).
Proof.
  intros Hwf. apply clearLines_loop_more_fuel.
  by rewrite (clearLines_scan g Hwf).
Qed.

(** What [clearLines] leaves behind, field by field. *)
Lemma clearLines_ok g :
  wf g ->
  exists g',
    clearLines Math_pow g = Ok g'
    /\ board g' = keep_open (board g)
                  ++ replicate (count_full (board g)) (emptyRow (gridWidth g))
    /\ gridWidth g' = gridWidth g /\ gridHeight g' = gridHeight g
    /\ currentPiece g' = currentPiece g
    /\ currentPosition g' = currentPosition g
    /\ nextShapes g' = nextShapes g
    /\ gameState g' = gameState g
    /\ isDropping g' = isDropping g
    /\ fallTimer g' = fallTimer g
    /\ linesCleared g' = linesCleared g + Z.of_nat (count_full (board g))
    /\ score g' = (if 0 <? Z.of_nat (count_full (board g))
                   then jsnum_add (score g)
                          (line_score (Z.of_nat (count_full (board g))) (level g))
                   else score g)
    /\ level g' = (if 0 <? Z.of_nat (count_full (board g))
                   then Z.max (level g)
                          ((linesCleared g + Z.of_nat (count_full (board g)))
                             / LEVEL_UP_LINES + 1)
                   else level g).
Proof.
  intros Hwf. unfold clearLines. rewrite (clearLines_scan g Hwf). simpl.
  destruct (0 <? Z.of_nat (count_full (board g))) eqn:En.
  - destruct (level g <? _) eqn:El; eexists; (split; [reflexivity|]); simpl;
      repeat split; try reflexivity.
    + apply Z.ltb_lt in El. lia.
    + apply Z.ltb_ge in El. lia.
  - apply Z.ltb_ge in En. eexists; split; [reflexivity|]. simpl.
    repeat split; try reflexivity. lia.
Qed.

Lemma clearLines_wf g g' : wf g -> clearLines Math_pow g = Ok g' -> wf g'.
Proof.
  intros Hwf Hg'.
  destruct (clearLines_ok g Hwf) as (g2 & Heq & Hb & HW & HH & _).
  rewrite Heq in Hg'. injection Hg' as <-.
  destruct Hwf as [HWv [Hlen Hrows]].
  split; rewrite HW; [done|]. rewrite HH, Hb, <- Hlen.
  apply board_dims_cleared; [destruct HWv; lia|]. by split.
Qed.

(** C2. On every well-formed board [clearLines] returns with no full row
    left: the board becomes its rows that are not full, in order, followed
    by one empty row per removed row, so the number of rows is unchanged;
    and a removal makes the scan test the same index again, on the
    shifted board, before it advances. *)
Theorem clearLines_removes_every_full_row g :
  wf g ->
  exists g',
    clearLines Math_pow g = Ok g'
    /\ Forall (fun row => row_full row = false) (board g')
    /\ board g' = keep_open (board g)
                  ++ replicate (count_full (board g)) (emptyRow (gridWidth g))
    /\ length (board g') = length (board g)
    /\ (forall fuel y count b row,
          y < gridHeight g -> array_get b y = Some row -> row_full row = true ->
          clearLines_loop (S fuel) (gridWidth g) (gridHeight g) y count b
          = clearLines_loop fuel (gridWidth g) (gridHeight g) y (count + 1)
              (delete (Z.to_nat y) b ++ [emptyRow (gridWidth g)])).
Proof.
  intros Hwf.
  destruct (clearLines_ok g Hwf) as (g' & Heq & Hb & _).
  exists g'. split; [done|]. split; [|split; [done|split]].
  - rewrite Hb. apply Forall_app. split; [apply keep_open_all_open|].
    apply Forall_replicate, emptyRow_open. destruct Hwf as [[? ?] _]. lia.
  - destruct Hwf as [HWv Hdims].
    assert (HW0 : 0 <= gridWidth g) by (destruct HWv; lia).
    assert (Hd : board_dims (gridWidth g) (Z.of_nat (length (board g))) (board g)).
    { destruct Hdims as [_ Hrows]. by split. }
    destruct (board_dims_cleared _ _ HW0 Hd) as [Hlen _].
    rewrite Hb. lia.
  - intros fuel y count b row Hy Hrow Hfull. simpl.
    destruct (y <? gridHeight g) eqn:E; [|apply Z.ltb_ge in E; lia].
    rewrite Hrow, Hfull.
    destruct Hwf as [HWv _]. by rewrite (Array_fill0_ok _ HWv).
Qed.

(** C3. A [clearLines] call that clears [n > 0] lines adds [n] to the
    cumulative counter and leaves the level at the larger of the previous
    level and [floor(cumulativeLines / 10) + 1]: the level rises exactly
    when the formula exceeds it, and then to the formula's value, however
    many thresholds were crossed. *)
Theorem clearLines_counter_and_level g :
  wf g ->
  0 < Z.of_nat (count_full (board g)) ->
  exists g',
    clearLines Math_pow g = Ok g'
    /\ linesCleared g' = linesCleared g + Z.of_nat (count_full (board g))
    /\ level g' = Z.max (level g) (linesCleared g' / 10 + 1)
    /\ (level g < level g' <-> level g < linesCleared g' / 10 + 1)
    /\ (level g < linesCleared g' / 10 + 1 ->
        level g' = linesCleared g' / 10 + 1)
    /\ (linesCleared g' / 10 + 1 <= level g -> level g' = level g).
Proof.
  intros Hwf Hn.
  destruct (clearLines_ok g Hwf)
    as (g' & Heq & _ & _ & _ & _ & _ & _ & _ & _ & _ & Hlines & _ & Hlevel).
  exists g'. split; [done|]. split; [done|].
  apply Z.ltb_lt in Hn. rewrite Hn in Hlevel.
  unfold LEVEL_UP_LINES in Hlevel. rewrite <- Hlines in Hlevel.
  rewrite Hlevel. repeat split; lia.
Qed.

(** ** Locking a piece *)

Lemma writeCells_dims W H pos value offsets :
  forall b,
    board_dims W H b ->
    exists b', writeCells W H pos value offsets b = Ok b' /\ board_dims W H b'.
Proof.
  induction offsets as [|[dx dy] rest IH]; intros b Hdims; simpl.
  - by exists b.
  - destruct ((0 <=? y pos + dy) && (y pos + dy <? H)
              && (0 <=? x pos + dx) && (x pos + dx <? W)) eqn:Hin; [|by apply IH].
    apply andb_prop in Hin as [Hin HxW]. apply andb_prop in Hin as [Hin Hx0].
    apply andb_prop in Hin as [Hy0 HyH].
    apply Z.leb_le in Hy0, Hx0. apply Z.ltb_lt in HyH, HxW.
    destruct Hdims as [Hlen Hrows].
    destruct (lookup_lt_is_Some_2 b (Z.to_nat (y pos + dy))) as [row Hrow]; [lia|].
    rewrite Hrow. apply IH. split.
    + rewrite length_insert. done.
    + apply Forall_insert; [done|].
      assert (Hrl : Z.of_nat (length row) = W)
        by (eapply (proj1 (Forall_lookup _ _) Hrows); eauto).
      unfold row_set. case_decide as Hd; [by rewrite length_insert | lia].
Qed.

Lemma placePiece_ok g :
  wf g ->
  exists g',
    placePiece Math_pow g = Ok g'
    /\ wf g'
    /\ gridWidth g' = gridWidth g /\ gridHeight g' = gridHeight g
    /\ nextShapes g' = nextShapes g
    /\ gameState g' = gameState g.
Proof.
  intros Hwf. unfold placePiece.
  destruct (currentPiece g) as [p|] eqn:Hp; [|by exists g].
  destruct Hwf as [HWv Hdims].
  destruct (writeCells_dims (gridWidth g) (gridHeight g) (currentPosition g)
              (colorIndex p + 1) (shape p) (board g) Hdims) as (b & Hb & Hbd).
  rewrite Hb. simpl.
  assert (Hwf1 : wf (set_board b g)) by (by split).
  destruct (clearLines_ok _ Hwf1)
    as (g1 & Heq & _ & HW & HH & _ & _ & Hq & Hs & _).
  pose proof (clearLines_wf _ _ Hwf1 Heq) as Hwf2.
  rewrite Heq. simpl. eexists. split; [reflexivity|].
  simpl. repeat split; try done; apply Hwf2.
Qed.

(** ** Placement validity *)

Lemma offset_ok_iff g pos d :
  0 <= gridHeight g ->
  Forall (fun row => Z.of_nat (length row) = gridWidth g) (board g) ->
  Z.of_nat (length (board g)) = gridHeight g ->
  offset_ok g pos d = true
  <-> gridHeight g <= y pos + snd d \/ offset_allowed g pos d.
Proof.
  intros HH Hrows Hlen. unfold offset_ok, offset_allowed, cell_at.
  set (cx := x pos + fst d). set (cy := y pos + snd d).
  destruct ((cx <? 0) || (gridWidth g <=? cx) || (cy <? 0)) eqn:Hout.
  - destruct (gridHeight g <=? cy) eqn:Htop.
    + apply Z.leb_le in Htop. split; [by left|done].
    + apply Z.leb_gt in Htop. split; [done|].
      apply orb_prop in Hout as [Hout|Hout];
        [apply orb_prop in Hout as [Hout|Hout]|];
        [apply Z.ltb_lt in Hout|apply Z.leb_le in Hout|apply Z.ltb_lt in Hout];
        intros [?|(? & ? & _)]; lia.
  - apply orb_false_elim in Hout as [Hout Hy0].
    apply orb_false_elim in Hout as [Hx0 HxW].
    apply Z.ltb_ge in Hx0, Hy0. apply Z.leb_gt in HxW.
    destruct (cy <? gridHeight g) eqn:Htop.
    + apply Z.ltb_lt in Htop.
      unfold array_get at 1 2.
      destruct (cy <? 0) eqn:E; [apply Z.ltb_lt in E; lia|].
      destruct (lookup_lt_is_Some_2 (board g) (Z.to_nat cy)) as [row Hrow]; [lia|].
      rewrite Hrow.
      assert (Hrl : Z.of_nat (length row) = gridWidth g)
        by (eapply (proj1 (Forall_lookup _ _) Hrows); eauto).
      unfold row_get, array_get.
      destruct (cx <? 0) eqn:E2; [apply Z.ltb_lt in E2; lia|].
      destruct (lookup_lt_is_Some_2 row (Z.to_nat cx)) as [c Hc]; [lia|].
      rewrite Hc. split.
      * intros Hopen. right. repeat split; try lia. intros _.
        destruct c as [v|]; [|done]. simpl in Hopen.
        destruct (v =? 0) eqn:Ev; [|done]. apply Z.eqb_eq in Ev. by subst.
      * intros [?|(_ & _ & Hcell)]; [lia|]. by rewrite (Hcell Htop).
    + apply Z.ltb_ge in Htop. split; [by left|done].
Qed.

(** C1, as the code has it. [isValidMove] accepts a position exactly when
    every offset either lies at or above the top of the grid (row >=
    height, whatever its column) or meets the stated rules: column in
    [0, width), row not negative, cell empty.  So it rejects a column
    outside the grid, a negative row and an occupied cell at every offset
    whose row is below the top; and it rejects the absence of a piece. *)
Theorem isValidMove_iff g p pos :
  wf g ->
  (isValidMove g (Some p) pos = true
   <-> Forall (fun d => gridHeight g <= y pos + snd d \/ offset_allowed g pos d)
         (shape p))
  /\ (forall d, In d (shape p) -> y pos + snd d < gridHeight g ->
      ~ offset_allowed g pos d -> isValidMove g (Some p) pos = false)
  /\ isValidMove g None pos = false.
Proof.
  intros [_ [Hlen Hrows]].
  assert (HH : 0 <= gridHeight g) by lia.
  assert (Hiff : isValidMove g (Some p) pos = true
                 <-> Forall (fun d => gridHeight g <= y pos + snd d
                                      \/ offset_allowed g pos d) (shape p)).
  { unfold isValidMove. rewrite List.forallb_forall, List.Forall_forall.
    split; intros Hall d Hd; specialize (Hall d Hd);
      by apply (offset_ok_iff g pos d HH Hrows Hlen). }
  split; [exact Hiff|]. split; [|done].
  intros d Hd Hbelow Hbad.
  apply not_true_is_false. intros Hv.
  apply (proj1 Hiff) in Hv. rewrite List.Forall_forall in Hv.
  destruct (Hv d Hd) as [Htop|Hok]; [lia|done].
Qed.

(** ** What each method leaves alone *)

(** Case analysis on the outcome of a call in a hypothesis
    [(x ← call; k) = Ok _]. *)
Ltac inv_bind H :=
  match type of H with
  | mbind _ ?r = Ok _ =>
      let E := fresh "E" in
      destruct r eqn:E; simpl in H; [|discriminate H|discriminate H]
  end.

Lemma isValidMove_frame g1 g2 piece pos :
  gridWidth g1 = gridWidth g2 -> gridHeight g1 = gridHeight g2 ->
  board g1 = board g2 ->
  isValidMove g1 piece pos = isValidMove g2 piece pos.
Proof.
  intros HW HH Hb. destruct piece as [p|]; [|done]. simpl.
  induction (shape p) as [|d rest IH]; [done|]. simpl. rewrite IH. f_equal.
  unfold offset_ok. by rewrite HW, HH, Hb.
Qed.

Lemma spawnNewPiece_frame g :
  let g' := spawnNewPiece g in
  board g' = board g /\ gridWidth g' = gridWidth g
  /\ gridHeight g' = gridHeight g /\ nextShapes g' = nextShapes g
  /\ score g' = score g /\ linesCleared g' = linesCleared g
  /\ level g' = level g
  /\ (gameState g = GAME_OVER -> gameState g' = GAME_OVER).
Proof.
  unfold spawnNewPiece. simpl. destruct (currentPiece g); simpl;
    match goal with |- context [isValidMove ?a ?b ?c] =>
      destruct (isValidMove a b c) end; simpl; repeat split; auto.
Qed.

Lemma selectShape_frame index g rnd :
  let g' := fst (selectShape index g rnd) in
  board g' = board g /\ gridWidth g' = gridWidth g
  /\ gridHeight g' = gridHeight g
  /\ score g' = score g /\ linesCleared g' = linesCleared g
  /\ level g' = level g
  /\ (gameState g = GAME_OVER -> gameState g' = GAME_OVER).
Proof.
  unfold selectShape.
  match goal with |- context [if ?c then (g, rnd) else _] => destruct c end;
    [simpl; repeat split; auto|].
  simpl.
  match goal with |- context [spawnNewPiece ?a] =>
    destruct (spawnNewPiece_frame a) as (Hb & HW & HH & _ & Hs & Hl & Hv & Hgo)
  end.
  simpl in *. repeat split; auto.
Qed.

Lemma moveHorizontal_frame direction g :
  let g' := moveHorizontal direction g in
  board g' = board g /\ gridWidth g' = gridWidth g
  /\ gridHeight g' = gridHeight g /\ nextShapes g' = nextShapes g
  /\ gameState g' = gameState g /\ currentPiece g' = currentPiece g
  /\ score g' = score g.
Proof.
  unfold moveHorizontal. destruct (negb (playing_with_piece g)); [done|].
  match goal with |- context [isValidMove ?a ?b ?c] =>
    destruct (isValidMove a b c) end; simpl; repeat split; auto.
Qed.

Lemma startDropping_frame g :
  let g' := startDropping g in
  board g' = board g /\ gridWidth g' = gridWidth g
  /\ gridHeight g' = gridHeight g /\ nextShapes g' = nextShapes g
  /\ gameState g' = gameState g /\ currentPiece g' = currentPiece g
  /\ score g' = score g.
Proof. unfold startDropping. destruct (playing_with_piece g); done. Qed.

Lemma clearLines_frame g g' :
  clearLines Math_pow g = Ok g' ->
  gridWidth g' = gridWidth g /\ gridHeight g' = gridHeight g
  /\ nextShapes g' = nextShapes g /\ gameState g' = gameState g
  /\ currentPiece g' = currentPiece g.
Proof.
  unfold clearLines. intros H. inv_bind H. destruct a as [n b]. simpl in H.
  destruct (0 <? n); [destruct (_ <? _)|]; injection H as <-; done.
Qed.

Lemma placePiece_frame g g' :
  placePiece Math_pow g = Ok g' ->
  gridWidth g' = gridWidth g /\ gridHeight g' = gridHeight g
  /\ nextShapes g' = nextShapes g /\ gameState g' = gameState g.
Proof.
  unfold placePiece. intros H.
  destruct (currentPiece g) as [p|]; [|by injection H as <-].
  inv_bind H. inv_bind H. injection H as <-.
  apply clearLines_frame in E0. simpl in *. tauto.
Qed.

Lemma moveDown_frame g g' :
  moveDown Math_pow g = Ok g' ->
  gridWidth g' = gridWidth g /\ gridHeight g' = gridHeight g
  /\ nextShapes g' = nextShapes g /\ gameState g' = gameState g.
Proof.
  unfold moveDown. intros H.
  destruct (negb (playing_with_piece g)); [by injection H as <-|].
  inv_bind H. injection H as <-. simpl.
  destruct (isValidMove _ _ _).
  - by injection E as <-.
  - inv_bind E. injection E as <-. simpl. by apply placePiece_frame.
Qed.

(** ** Spawning *)

Lemma spawnNewPiece_spec g p :
  currentPiece g = Some p ->
  let pos := mkPosition (gridWidth g / 2)
               (gridHeight g - 1 - maxY_of (shape p)) in
  let g1 := set_currentPosition pos
              (set_fallTimer 0%float (set_isDropping false g)) in
  spawnNewPiece g
  = if isValidMove g (Some p) pos then g1
    else set_currentPiece None (set_gameState GAME_OVER g1).
Proof.
  intros Hp. unfold spawnNewPiece. simpl. rewrite Hp. simpl.
  match goal with |- context [isValidMove ?a ?b ?c] =>
    rewrite (isValidMove_frame a g b c) by reflexivity end.
  simpl. rewrite ?Hp. simpl. destruct (forallb _ _); reflexivity.
Qed.

Lemma catalog_maxY p : In p SHAPES -> maxY_of (shape p) = max_dy (shape p).
Proof.
  intros Hin. simpl in Hin.
  repeat (destruct Hin as [<-|Hin]; [reflexivity|]). destruct Hin.
Qed.

Lemma step_game_over_from_spawn op g rnd g1 rnd1 :
  gameState g = PLAYING ->
  step Math_pow op g rnd = Ok (g1, rnd1) ->
  gameState g1 = GAME_OVER ->
  exists gs, gameState gs = PLAYING /\ g1 = spawnNewPiece gs.
Proof.
  intros Hplay Hstep Hover.
  assert (Hsel : forall index,
             selectShape index g rnd = (g1, rnd1) ->
             exists gs, gameState gs = PLAYING /\ g1 = spawnNewPiece gs).
  { intros index. unfold selectShape.
    match goal with |- context [if ?c then (g, rnd) else _] => destruct c end.
    - intros [= <- <-]. congruence.
    - simpl. intros [= <- <-]. eexists. split; [|reflexivity]. done. }
  destruct op; simpl in Hstep.
  - injection Hstep as Hstep. by apply (Hsel index).
  - injection Hstep as <- <-.
    destruct (moveHorizontal_frame direction g) as (_ & _ & _ & _ & Hs & _).
    simpl in Hs. congruence.
  - inv_bind Hstep. injection Hstep as <- <-.
    apply moveDown_frame in E. destruct E as (_ & _ & _ & Hs). congruence.
  - injection Hstep as <- <-.
    destruct (startDropping_frame g) as (_ & _ & _ & _ & Hs & _).
    simpl in Hs. congruence.
  - inv_bind Hstep. injection Hstep as <- <-.
    apply placePiece_frame in E. destruct E as (_ & _ & _ & Hs). congruence.
  - inv_bind Hstep. injection Hstep as <- <-.
    apply clearLines_frame in E. destruct E as (_ & _ & _ & Hs & _). congruence.
  - unfold update in Hstep. rewrite Hplay in Hstep.
    destruct (currentPiece g) as [p|] eqn:Hp.
    + match type of Hstep with
      | (if ?c then _ else _) = _ => destruct c
      end.
      * inv_bind Hstep. injection Hstep as <- <-.
        apply moveDown_frame in E. destruct E as (_ & _ & _ & Hs).
        rewrite Hs in Hover. simpl in Hover.
        revert Hover.
        destruct (drop inputs), (moveRight inputs), (moveLeft inputs);
          repeat first
            [ rewrite (proj1 (proj2 (proj2 (proj2 (proj2 (startDropping_frame _))))))
            | rewrite (proj1 (proj2 (proj2 (proj2 (proj2 (moveHorizontal_frame _ _)))))) ];
          congruence.
      * injection Hstep as <- <-. simpl in Hover. revert Hover.
        destruct (drop inputs), (moveRight inputs), (moveLeft inputs);
          repeat first
            [ rewrite (proj1 (proj2 (proj2 (proj2 (proj2 (startDropping_frame _))))))
            | rewrite (proj1 (proj2 (proj2 (proj2 (proj2 (moveHorizontal_frame _ _)))))) ];
          congruence.
    + destruct (inputSelectShape inputs) as [index|].
      * injection Hstep as Hstep. by apply (Hsel index).
      * injection Hstep as <- <-. congruence.
Qed.

(** C5. Spawning a catalog shape puts the pivot at
    [x = floor(width / 2)], [y = height - 1 - maxDy], [maxDy] the largest
    [dy] of the shape.  If that position passes [isValidMove] the piece
    stays active and the status is unchanged; if it fails, the status
    becomes [GAME_OVER] and the active piece is cleared.  [spawnNewPiece]
    is a total function (nothing is thrown), and no call turns a
    [PLAYING] engine into a [GAME_OVER] one except through it. *)
Theorem spawnNewPiece_catalog g p :
  In p SHAPES ->
  currentPiece g = Some p ->
  currentPosition (spawnNewPiece g) = spawnPosition g p
  /\ x (spawnPosition g p) = gridWidth g / 2
  /\ y (spawnPosition g p) = gridHeight g - 1 - max_dy (shape p)
  /\ (isValidMove g (Some p) (spawnPosition g p) = true ->
      currentPiece (spawnNewPiece g) = Some p
      /\ gameState (spawnNewPiece g) = gameState g)
  /\ (isValidMove g (Some p) (spawnPosition g p) = false ->
      currentPiece (spawnNewPiece g) = None
      /\ gameState (spawnNewPiece g) = GAME_OVER)
  /\ (forall op g0 rnd g1 rnd1,
        gameState g0 = PLAYING ->
        step Math_pow op g0 rnd = Ok (g1, rnd1) ->
        gameState g1 = GAME_OVER ->
        exists gs, gameState gs = PLAYING /\ g1 = spawnNewPiece gs).
Proof.
  intros Hin Hp. pose proof (spawnNewPiece_spec g p Hp) as Hspec.
  cbv zeta in Hspec. rewrite (catalog_maxY p Hin) in Hspec.
  fold (spawnPosition g p) in Hspec.
  split; [|split; [done|split; [done|split; [|split]]]].
  - rewrite Hspec. by destruct (isValidMove _ _ _).
  - intros Hv. by rewrite Hspec, Hv.
  - intros Hv. by rewrite Hspec, Hv.
  - intros op g0 rnd g1 rnd1. apply step_game_over_from_spawn.
Qed.

(** ** Selection *)

Lemma selectShape_valid index g rnd chosen :
  0 <= index ->
  nextShapes g !! Z.to_nat index = Some chosen ->
  selectShape index g rnd
  = (spawnNewPiece
       (set_nextShapes
          (delete (Z.to_nat index) (nextShapes g) ++ [SHAPES_at (rnd O)])
          (set_currentPiece (Some chosen) g)),
     fun n => rnd (S n)).
Proof.
  intros Hi Hq. unfold selectShape.
  pose proof (lookup_lt_Some _ _ _ Hq) as Hlt.
  assert (Hget : array_get (nextShapes g) index = Some chosen).
  { unfold array_get. destruct (index <? 0) eqn:E; [apply Z.ltb_lt in E; lia|done]. }
  destruct (index <? 0) eqn:E1; [apply Z.ltb_lt in E1; lia|].
  destruct (Z.of_nat (length (nextShapes g)) <=? index) eqn:E2;
    [apply Z.leb_le in E2; lia|].
  rewrite Hget. simpl. rewrite Hget. reflexivity.
Qed.

Lemma selectShape_out_of_range index g rnd :
  index < 0 \/ Z.of_nat (length (nextShapes g)) <= index ->
  selectShape index g rnd = selectShape 0 g rnd.
Proof.
  intros Hout. unfold selectShape.
  assert (Hinv : (index <? 0) || (Z.of_nat (length (nextShapes g)) <=? index)
                 = true).
  { destruct Hout as [Hneg|Hbig].
    - apply Z.ltb_lt in Hneg. by rewrite Hneg.
    - apply Z.leb_le in Hbig. rewrite Hbig. apply orb_true_r. }
  rewrite Hinv. simpl.
  destruct (nextShapes g) as [|a q]; [reflexivity|]. reflexivity.
Qed.

(** A selection that goes through takes one shape out of the queue and
    puts one in; one that returns early leaves the queue alone. *)
Lemma selectShape_queue_length index g rnd :
  length (nextShapes (fst (selectShape index g rnd))) = length (nextShapes g).
Proof.
  unfold selectShape.
  set (invalid := (index <? 0) || _ || _).
  set (index' := if invalid then 0 else index).
  assert (Hcases : invalid = true /\ index' = 0
                   \/ invalid = false /\ index' = index)
    by (unfold index'; destruct invalid; auto).
  destruct (bool_decide (is_Some (array_get (nextShapes g) index'))) eqn:Hsome.
  - rewrite andb_false_r. simpl.
    match goal with |- context [spawnNewPiece ?s] =>
      destruct (spawnNewPiece_frame s) as (_ & _ & _ & Hn & _); rewrite Hn
    end.
    simpl. rewrite length_app. simpl.
    apply bool_decide_eq_true in Hsome. unfold array_get in Hsome.
    destruct (index' <? 0); [by destruct Hsome|].
    rewrite length_delete by done.
    apply lookup_lt_is_Some in Hsome. lia.
  - destruct Hcases as [[-> _]|[Hinv ->]]; [done|].
    exfalso. unfold invalid in Hinv.
    apply orb_false_elim in Hinv as [_ Hinv].
    rewrite Hsome in Hinv. done.
Qed.

(** C7. With no active piece and the three-slot preview queue
    [[a; b; c]], an index below 0 or at least 3 selects as index 0 does;
    selecting slot [i] makes the queue the two other shapes in their order
    followed by the freshly generated one — three shapes again — and
    spawns the removed shape. *)
Theorem selectShape_queue g rnd a b c :
  currentPiece g = None ->
  nextShapes g = [a; b; c] ->
  let fresh := SHAPES_at (rnd O) in
  let spawned chosen rest :=
    (spawnNewPiece
       (set_nextShapes (rest ++ [fresh]) (set_currentPiece (Some chosen) g)),
     fun n => rnd (S n)) in
  (forall index, index < 0 \/ 3 <= index ->
     selectShape index g rnd = selectShape 0 g rnd)
  /\ selectShape 0 g rnd = spawned a [b; c]
  /\ selectShape 1 g rnd = spawned b [a; c]
  /\ selectShape 2 g rnd = spawned c [a; b]
  /\ nextShapes (fst (selectShape 0 g rnd)) = [b; c; fresh]
  /\ nextShapes (fst (selectShape 1 g rnd)) = [a; c; fresh]
  /\ nextShapes (fst (selectShape 2 g rnd)) = [a; b; fresh].
Proof.
  intros _ Hq fresh spawned.
  assert (H0 : selectShape 0 g rnd = spawned a [b; c]).
  { rewrite (selectShape_valid 0 g rnd a); [|lia|by rewrite Hq].
    by rewrite Hq. }
  assert (H1 : selectShape 1 g rnd = spawned b [a; c]).
  { rewrite (selectShape_valid 1 g rnd b); [|lia|by rewrite Hq].
    by rewrite Hq. }
  assert (H2 : selectShape 2 g rnd = spawned c [a; b]).
  { rewrite (selectShape_valid 2 g rnd c); [|lia|by rewrite Hq].
    by rewrite Hq. }
  split; [|split; [done|split; [done|split; [done|]]]].
  - intros index Hout. apply selectShape_out_of_range. rewrite Hq. simpl. lia.
  - rewrite H0, H1, H2. unfold spawned. simpl.
    repeat split;
      match goal with |- context [spawnNewPiece ?s] =>
        destruct (spawnNewPiece_frame s) as (_ & _ & _ & Hn & _); by rewrite Hn
      end.
Qed.

Lemma update_with_piece deltaTime inputs g rnd p :
  currentPiece g = Some p ->
  update Math_pow deltaTime inputs g rnd
  = update Math_pow deltaTime
      (mkInputs (moveLeft inputs) (moveRight inputs) (drop inputs) None) g rnd
  /\ (forall g' rnd',
        update Math_pow deltaTime inputs g rnd = Ok (g', rnd') ->
        nextShapes g' = nextShapes g /\ rnd' = rnd).
Proof.
  intros Hp. split.
  - unfold update. by rewrite Hp.
  - intros g' rnd'. unfold update. rewrite Hp.
    destruct (gameState g); [|by intros [= <- <-]].
    set (gm := set_fallTimer _ _).
    assert (Hgm : nextShapes gm = nextShapes g).
    { unfold gm. simpl.
      destruct (drop inputs), (moveRight inputs), (moveLeft inputs);
        repeat first
          [ rewrite (proj1 (proj2 (proj2 (proj2 (startDropping_frame _)))))
          | rewrite (proj1 (proj2 (proj2 (proj2 (moveHorizontal_frame _ _))))) ];
        reflexivity. }
    destruct (PrimFloat.leb _ _).
    + intros H. inv_bind H. injection H as <- <-.
      apply moveDown_frame in E. destruct E as (_ & _ & Hn & _).
      split; [congruence|done].
    + by intros [= <- <-].
Qed.

(** C10. [selectShape] does not look at the active piece.  Called on a
    [PLAYING] engine that has one, with a valid slot, it overwrites the
    piece with the selected shape, takes that shape out of the queue,
    appends a fresh one and spawns; the board is untouched, and the
    outcome is that of the same call on the engine without the old piece.
    [update] cannot do this: with an active piece it ignores the selection
    input, leaves the queue alone and draws no random shape. *)
Theorem selectShape_ignores_active_piece g rnd old index chosen :
  gameState g = PLAYING ->
  currentPiece g = Some old ->
  0 <= index ->
  nextShapes g !! Z.to_nat index = Some chosen ->
  selectShape index g rnd
  = (spawnNewPiece
       (set_nextShapes
          (delete (Z.to_nat index) (nextShapes g) ++ [SHAPES_at (rnd O)])
          (set_currentPiece (Some chosen) g)),
     fun n => rnd (S n))
  /\ selectShape index g rnd = selectShape index (set_currentPiece None g) rnd
  /\ board (fst (selectShape index g rnd)) = board g
  /\ (forall deltaTime inputs,
        update Math_pow deltaTime inputs g rnd
        = update Math_pow deltaTime
            (mkInputs (moveLeft inputs) (moveRight inputs) (drop inputs) None)
            g rnd)
  /\ (forall deltaTime inputs g' rnd',
        update Math_pow deltaTime inputs g rnd = Ok (g', rnd') ->
        nextShapes g' = nextShapes g /\ rnd' = rnd).
Proof.
  intros _ Hold Hi Hq. split; [by apply selectShape_valid|].
  split; [|split; [|split]].
  - rewrite (selectShape_valid index g rnd chosen Hi Hq).
    rewrite (selectShape_valid index (set_currentPiece None g) rnd chosen Hi Hq).
    reflexivity.
  - apply selectShape_frame.
  - intros deltaTime inputs.
    apply (update_with_piece deltaTime inputs g rnd old Hold).
  - intros deltaTime inputs.
    apply (update_with_piece deltaTime inputs g rnd old Hold).
Qed.

(** ** Scoring a placement *)

(** C4. One [placePiece] call writes the piece and scans the board once.
    With [n] the number of full rows found, the cumulative counter grows
    by [n]; for [n = 0] the score is unchanged, and for [1 <= n <= 4] it
    grows by [SCORE_PER_LINE[n] * level], [level] being the level before
    the call, with the table [[0; 100; 300; 500; 800]]. *)
Theorem placePiece_awards_once g p :
  wf g ->
  currentPiece g = Some p ->
  exists b g',
    writeCells (gridWidth g) (gridHeight g) (currentPosition g)
      (colorIndex p + 1) (shape p) (board g) = Ok b
    /\ placePiece Math_pow g = Ok g'
    /\ linesCleared g' = linesCleared g + Z.of_nat (count_full b)
    /\ (count_full b = 0%nat -> score g' = score g)
    /\ ((1 <= count_full b <= 4)%nat ->
        score g' = jsnum_add (score g)
                     (Num (nth (count_full b) SCORE_PER_LINE 0 * level g)))
    /\ SCORE_PER_LINE = [0; 100; 300; 500; 800].
Proof.
  intros Hwf Hp. unfold placePiece. rewrite Hp.
  destruct Hwf as [HWv Hdims].
  destruct (writeCells_dims (gridWidth g) (gridHeight g) (currentPosition g)
              (colorIndex p + 1) (shape p) (board g) Hdims) as (b & Hb & Hbd).
  rewrite Hb. simpl.
  assert (Hwf1 : wf (set_board b g)) by (by split).
  destruct (clearLines_ok _ Hwf1)
    as (g1 & Heq & _ & _ & _ & _ & _ & _ & _ & _ & _ & Hlines & Hscore & _).
  rewrite Heq. simpl in *.
  exists b. eexists. split; [done|]. split; [reflexivity|]. simpl.
  split; [done|]. split; [|split; [|done]].
  - intros Hn. by rewrite Hn in Hscore.
  - intros Hn. rewrite Hscore.
    destruct (0 <? Z.of_nat (count_full b)) eqn:E; [|apply Z.ltb_ge in E; lia].
    f_equal. unfold line_score, array_get.
    destruct (count_full b) as [|[|[|[|[|n]]]]]; try lia; reflexivity.
Qed.

(** ** Determinism *)

Lemma selectShape_same_draws index g rnd1 rnd2 :
  (forall n, rnd1 n = rnd2 n) ->
  same_outcome (Ok (selectShape index g rnd1)) (Ok (selectShape index g rnd2)).
Proof.
  intros Hrnd. unfold selectShape.
  match goal with |- context [if ?c then (g, rnd1) else _] => destruct c end.
  - by split.
  - simpl. rewrite (Hrnd O). split; [done|]. intros n. apply Hrnd.
Qed.

Lemma step_same_draws op g rnd1 rnd2 :
  (forall n, rnd1 n = rnd2 n) ->
  same_outcome (step Math_pow op g rnd1) (step Math_pow op g rnd2).
Proof.
  intros Hrnd. destruct op; simpl.
  - by apply selectShape_same_draws.
  - by split.
  - by destruct (moveDown Math_pow g).
  - by split.
  - by destruct (placePiece Math_pow g).
  - by destruct (clearLines Math_pow g).
  - unfold update. destruct (gameState g); [|by split].
    destruct (currentPiece g).
    + destruct (PrimFloat.leb _ _); [|by split].
      by destruct (moveDown Math_pow _).
    + destruct (inputSelectShape inputs); [|by split].
      by apply selectShape_same_draws.
Qed.

Lemma run_same_draws ops :
  forall g rnd1 rnd2,
    (forall n, rnd1 n = rnd2 n) ->
    same_outcome (run Math_pow ops g rnd1) (run Math_pow ops g rnd2).
Proof.
  induction ops as [|op ops IH]; intros g rnd1 rnd2 Hrnd; simpl.
  - by split.
  - pose proof (step_same_draws op g rnd1 rnd2 Hrnd) as Hstep.
    destruct (step Math_pow op g rnd1) as [[g1 r1]| |],
             (step Math_pow op g rnd2) as [[g2 r2]| |]; simpl in *; try done.
    destruct Hstep as [<- Hr]. by apply IH.
Qed.

(** C6, as the code has it.  The engine draws its shapes from
    [Math.random], which is no part of the engine state: runs from the
    same state under the same calls agree after every step provided the
    random draws agree too.  A frame that performs no selection does not
    consult the random source at all. *)
Theorem run_deterministic_given_draws ops g rnd1 rnd2 :
  (forall n, rnd1 n = rnd2 n) ->
  game_of (run Math_pow ops g rnd1) = game_of (run Math_pow ops g rnd2)
  /\ (forall deltaTime inputs r1 r2,
        currentPiece g <> None \/ inputSelectShape inputs = None ->
        game_of (update Math_pow deltaTime inputs g r1)
        = game_of (update Math_pow deltaTime inputs g r2)).
Proof.
  intros Hrnd. split.
  - pose proof (run_same_draws ops g rnd1 rnd2 Hrnd) as Hsame.
    destruct (run Math_pow ops g rnd1) as [[g1 r1]| |],
             (run Math_pow ops g rnd2) as [[g2 r2]| |]; simpl in *; try done.
    + by destruct Hsame as [<- _].
    + by subst.
  - intros deltaTime inputs r1 r2 Hnosel. unfold update.
    destruct (gameState g); [|done].
    destruct (currentPiece g) as [p|].
    + destruct (PrimFloat.leb _ _); [|done].
      by destruct (moveDown Math_pow _).
    + destruct Hnosel as [Hp|Hsel]; [done|]. by rewrite Hsel.
Qed.

(** ** The terminal state *)

Lemma step_game_over op g rnd :
  gameState g = GAME_OVER ->
  (is_move_or_update op -> step Math_pow op g rnd = Ok (g, rnd))
  /\ (forall g' rnd',
        step Math_pow op g rnd = Ok (g', rnd') -> gameState g' = GAME_OVER).
Proof.
  intros Hover.
  assert (Hnp : playing_with_piece g = false)
    by (unfold playing_with_piece; by rewrite Hover).
  split.
  - destruct op; simpl; try done; intros _.
    + unfold moveHorizontal. by rewrite Hnp.
    + unfold moveDown. by rewrite Hnp.
    + unfold update. by rewrite Hover.
  - intros g' rnd' Hstep. destruct op; simpl in Hstep.
    + injection Hstep as Hstep.
      pose proof (selectShape_frame index g rnd) as Hf. simpl in Hf.
      rewrite Hstep in Hf. simpl in Hf. by apply Hf.
    + injection Hstep as <- <-. unfold moveHorizontal. by rewrite Hnp.
    + unfold moveDown in Hstep. rewrite Hnp in Hstep. simpl in Hstep.
      by injection Hstep as <- <-.
    + injection Hstep as <- <-. unfold startDropping. by rewrite Hnp.
    + inv_bind Hstep. injection Hstep as <- <-.
      apply placePiece_frame in E. destruct E as (_ & _ & _ & Hs). congruence.
    + inv_bind Hstep. injection Hstep as <- <-.
      apply clearLines_frame in E. destruct E as (_ & _ & _ & Hs & _). congruence.
    + unfold update in Hstep. rewrite Hover in Hstep.
      by injection Hstep as <- <-.
Qed.

(** C8. [GAME_OVER] is terminal.  On an engine in that status
    [moveDown], [moveHorizontal] and [update] return without changing
    anything, and so does any sequence of them: no board cell changes.
    No call at all takes the status out of [GAME_OVER]. *)
Theorem game_over_is_terminal g rnd :
  gameState g = GAME_OVER ->
  moveDown Math_pow g = Ok g
  /\ (forall direction, moveHorizontal direction g = g)
  /\ (forall deltaTime inputs,
        update Math_pow deltaTime inputs g rnd = Ok (g, rnd))
  /\ (forall ops, Forall is_move_or_update ops ->
        run Math_pow ops g rnd = Ok (g, rnd))
  /\ (forall ops g' rnd',
        run Math_pow ops g rnd = Ok (g', rnd') -> gameState g' = GAME_OVER).
Proof.
  intros Hover.
  assert (Hnp : playing_with_piece g = false)
    by (unfold playing_with_piece; by rewrite Hover).
  split; [unfold moveDown; by rewrite Hnp|].
  split; [intros d; unfold moveHorizontal; by rewrite Hnp|].
  split; [intros dt inp; unfold update; by rewrite Hover|].
  split.
  - intros ops Hops. induction Hops as [|op ops Hop _ IH]; [done|].
    simpl. rewrite (proj1 (step_game_over op g rnd Hover) Hop). simpl. exact IH.
  - intros ops. clear Hnp. revert g rnd Hover.
    induction ops as [|op ops IH]; intros g rnd Hover g' rnd' Hrun;
      simpl in Hrun.
    + by injection Hrun as <- <-.
    + inv_bind Hrun. destruct a as [g1 r1].
      pose proof (proj2 (step_game_over op g rnd Hover) g1 r1 E) as Hover1.
      exact (IH g1 r1 Hover1 g' rnd' Hrun).
Qed.

(** ** Board dimensions *)

Lemma wf_frame g g' :
  wf g -> board g' = board g -> gridWidth g' = gridWidth g ->
  gridHeight g' = gridHeight g -> wf g'.
Proof. unfold wf. intros Hwf -> -> ->. exact Hwf. Qed.

Lemma moveDown_ok g :
  wf g ->
  exists g', moveDown Math_pow g = Ok g' /\ wf g'
             /\ gridWidth g' = gridWidth g /\ gridHeight g' = gridHeight g.
Proof.
  intros Hwf. unfold moveDown.
  destruct (negb (playing_with_piece g)); [by exists g|].
  destruct (isValidMove _ _ _); simpl.
  - eexists. split; [reflexivity|]. by split.
  - destruct (placePiece_ok g Hwf) as (g1 & Heq & Hwf1 & HW & HH & _).
    rewrite Heq. simpl. eexists. split; [reflexivity|].
    split; [|by split]. by apply (wf_frame g1).
Qed.

Lemma step_ok op g rnd :
  wf g ->
  exists g' rnd',
    step Math_pow op g rnd = Ok (g', rnd') /\ wf g'
    /\ gridWidth g' = gridWidth g /\ gridHeight g' = gridHeight g.
Proof.
  intros Hwf.
  assert (Hsel : forall index,
            exists g' rnd', Ok (selectShape index g rnd)
                            = Ok (g', rnd') :> result (Game * RandomSource)
              /\ wf g' /\ gridWidth g' = gridWidth g
              /\ gridHeight g' = gridHeight g).
  { intros index.
    destruct (selectShape_frame index g rnd) as (Hb & HW & HH & _).
    destruct (selectShape index g rnd) as [g' rnd'] eqn:E. simpl in *.
    exists g', rnd'. split; [done|]. split; [by apply (wf_frame g)|by split]. }
  assert (Hmh : forall d g0, wf g0 ->
            wf (moveHorizontal d g0)
            /\ gridWidth (moveHorizontal d g0) = gridWidth g0
            /\ gridHeight (moveHorizontal d g0) = gridHeight g0).
  { intros d g0 H0.
    destruct (moveHorizontal_frame d g0) as (Hb & HW & HH & _).
    split; [by apply (wf_frame g0)|by split]. }
  assert (Hsd : forall g0, wf g0 ->
            wf (startDropping g0)
            /\ gridWidth (startDropping g0) = gridWidth g0
            /\ gridHeight (startDropping g0) = gridHeight g0).
  { intros g0 H0.
    destruct (startDropping_frame g0) as (Hb & HW & HH & _).
    split; [by apply (wf_frame g0)|by split]. }
  destruct op; simpl.
  - apply Hsel.
  - eexists _, _. split; [reflexivity|]. by apply Hmh.
  - destruct (moveDown_ok g Hwf) as (g' & Heq & Hrest). rewrite Heq. simpl.
    by exists g', rnd.
  - eexists _, _. split; [reflexivity|]. by apply Hsd.
  - destruct (placePiece_ok g Hwf) as (g' & Heq & Hwf' & HW & HH & _).
    rewrite Heq. simpl. by exists g', rnd.
  - destruct (clearLines_ok g Hwf) as (g' & Heq & _ & HW & HH & _).
    rewrite Heq. simpl. exists g', rnd. split; [done|].
    split; [by apply (clearLines_wf g)|by split].
  - unfold update. destruct (gameState g); [|by exists g, rnd].
    destruct (currentPiece g) as [p|].
    + set (g1 := if moveLeft inputs then moveHorizontal (-1) g else g).
      assert (H1 : wf g1 /\ gridWidth g1 = gridWidth g
                   /\ gridHeight g1 = gridHeight g).
      { unfold g1. destruct (moveLeft inputs); [by apply Hmh|done]. }
      set (g2 := if moveRight inputs then moveHorizontal 1 g1 else g1).
      assert (H2 : wf g2 /\ gridWidth g2 = gridWidth g
                   /\ gridHeight g2 = gridHeight g).
      { unfold g2. destruct H1 as (Hw1 & HW1 & HH1).
        destruct (moveRight inputs); [|done].
        destruct (Hmh 1 g1 Hw1) as (? & ? & ?). split; [done|]. split; congruence. }
      set (g3 := if drop inputs then startDropping g2 else g2).
      assert (H3 : wf g3 /\ gridWidth g3 = gridWidth g
                   /\ gridHeight g3 = gridHeight g).
      { unfold g3. destruct H2 as (Hw2 & HW2 & HH2).
        destruct (drop inputs); [|done].
        destruct (Hsd g2 Hw2) as (? & ? & ?). split; [done|]. split; congruence. }
      destruct H3 as (Hw3 & HW3 & HH3).
      set (g4 := set_fallTimer _ g3).
      assert (Hw4 : wf g4) by (by apply (wf_frame g3)).
      destruct (PrimFloat.leb _ _).
      * destruct (moveDown_ok g4 Hw4) as (g' & Heq & Hwf' & HW & HH).
        rewrite Heq. simpl. exists g', rnd. split; [done|]. split; [done|].
        simpl in HW, HH. split; congruence.
      * exists g4, rnd. split; [done|]. split; [done|]. by split.
    + destruct (inputSelectShape inputs) as [index|]; [apply Hsel|].
      by exists g, rnd.
Qed.

Lemma run_ok ops :
  forall g rnd,
    wf g ->
    exists g' rnd',
      run Math_pow ops g rnd = Ok (g', rnd') /\ wf g'
      /\ gridWidth g' = gridWidth g /\ gridHeight g' = gridHeight g.
Proof.
  induction ops as [|op ops IH]; intros g rnd Hwf; simpl.
  - by exists g, rnd.
  - destruct (step_ok op g rnd Hwf) as (g1 & r1 & Heq & Hwf1 & HW & HH).
    rewrite Heq. simpl.
    destruct (IH g1 r1 Hwf1) as (g' & rnd' & Hrun & Hwf' & HW' & HH').
    exists g', rnd'. split; [done|]. split; [done|]. split; congruence.
Qed.


Lemma generateShapes_length n :
  forall q rnd, length (fst (generateShapes n q rnd)) = (length q + n)%nat.
Proof.
  induction n as [|n IH]; intros q rnd; simpl; [lia|].
  rewrite IH, length_app. simpl. lia.
Qed.

Lemma init_queue_length g rnd g0 rnd0 :
  init g rnd = Ok (g0, rnd0) -> length (nextShapes g0) = 3%nat.
Proof.
  unfold init. destruct (emptyBoard _ _) as [b| |]; [|discriminate|discriminate].
  cbv beta iota delta [mbind result_bind].
  pose proof (generateShapes_length PREVIEW_COUNT [] rnd) as Hq.
  destruct (generateShapes PREVIEW_COUNT [] rnd) as [q rnd'].
  intros [= Hsel].
  match type of Hsel with selectShape 0 ?s ?r = _ =>
    pose proof (selectShape_queue_length 0 s r) as Hlen
  end.
  rewrite Hsel in Hlen. cbn in Hlen, Hq. rewrite Hlen, Hq. reflexivity.
Qed.

(** The preview queue holds three shapes from initialisation on. *)
Lemma queue_length_invariant cfg rnd ops g0 rnd0 g rnd1 :
  init (constructor cfg) rnd = Ok (g0, rnd0) ->
  run Math_pow ops g0 rnd0 = Ok (g, rnd1) ->
  length (nextShapes g) = 3%nat.
Proof.
  intros Hinit Hrun.
  pose proof (init_queue_length _ _ _ _ Hinit) as H0.
  clear Hinit. revert g0 rnd0 H0 Hrun.
  induction ops as [|op ops IH]; intros g0 rnd0 H0 Hrun; simpl in Hrun.
  - by injection Hrun as <- <-.
  - inv_bind Hrun. destruct a as [g1 r1]. apply (IH g1 r1); [|done].
    clear IH Hrun. rewrite <- H0. destruct op; simpl in E.
    + injection E as E.
      pose proof (selectShape_queue_length index g0 rnd0) as Hlen.
      by rewrite E in Hlen.
    + injection E as <- <-.
      by rewrite (proj1 (proj2 (proj2 (proj2 (moveHorizontal_frame _ _))))).
    + inv_bind E. injection E as <- <-.
      apply moveDown_frame in E0. destruct E0 as (_ & _ & Hn & _). by rewrite Hn.
    + injection E as <- <-.
      by rewrite (proj1 (proj2 (proj2 (proj2 (startDropping_frame _))))).
    + inv_bind E. injection E as <- <-.
      apply placePiece_frame in E0. destruct E0 as (_ & _ & Hn & _). by rewrite Hn.
    + inv_bind E. injection E as <- <-.
      apply clearLines_frame in E0. destruct E0 as (_ & _ & Hn & _). by rewrite Hn.
    + destruct (currentPiece g0) as [p|] eqn:Hp.
      * by destruct (proj2 (update_with_piece deltaTime inputs g0 rnd0 p Hp)
                       g1 r1 E) as [-> _].
      * unfold update in E. rewrite Hp in E.
        destruct (gameState g0); [|by injection E as <- <-].
        destruct (inputSelectShape inputs) as [index|];
          [|by injection E as <- <-].
        injection E as E.
        pose proof (selectShape_queue_length index g0 rnd0) as Hlen.
        by rewrite E in Hlen.
Qed.


End Properties.

(** * The properties on concrete engines *)

(** Well-formedness of a concrete engine, by evaluation. *)
Ltac wf_by_computation :=
  split; [split; [reflexivity | discriminate]
         | split; [reflexivity | repeat constructor]].

(** ** Evaluations *)

Example lockingGame_moveDown_locks :
  (fun g => (board g !! 0%nat, board g !! 1%nat, score g, linesCleared g,
             level g, currentPiece g, isDropping g))
    <$> moveDown pow_by_mul lockingGame
  = Ok (Some halfRow, Some (replicate 10 (Some 0)), Num 1300, 21, 3, None, false).
Proof. vm_compute. reflexivity. Qed.

Example defaultGame_spawns_square :
  (fun r => (currentPiece (fst r), currentPosition (fst r), gameState (fst r),
             length (board (fst r)), length (nextShapes (fst r))))
    <$> defaultGame
  = Ok (Some (SHAPES_at Ix1), mkPosition 5 18, PLAYING, 20%nat, 3%nat).
Proof. vm_compute. reflexivity. Qed.

(** ** C1 *)

Lemma isValidMove_iff_witness :
  (isValidMove lockingGame (Some (SHAPES_at Ix1)) (mkPosition 4 0) = true
   <-> Forall (fun d => gridHeight lockingGame <= y (mkPosition 4 0) + snd d
                        \/ offset_allowed lockingGame (mkPosition 4 0) d)
         (shape (SHAPES_at Ix1)))
  /\ (forall d, In d (shape (SHAPES_at Ix1)) ->
      y (mkPosition 4 0) + snd d < gridHeight lockingGame ->
      ~ offset_allowed lockingGame (mkPosition 4 0) d ->
      isValidMove lockingGame (Some (SHAPES_at Ix1)) (mkPosition 4 0) = false)
  /\ isValidMove lockingGame None (mkPosition 4 0) = false.
Proof.
  apply (isValidMove_iff lockingGame (SHAPES_at Ix1) (mkPosition 4 0)).
  wf_by_computation.
Defined.

(** The I piece wholly left of a well-formed 10 x 20 grid, one row above
    its top: every offset has its column outside [0, 10), and the move is
    accepted. *)
Lemma isValidMove_accepts_column_outside_above_top :
  wf lockingGame
  /\ Forall (fun d => ~ (0 <= x (mkPosition (-3) 20) + fst d < gridWidth lockingGame))
       (shape (SHAPES_at Ix0))
  /\ isValidMove lockingGame (Some (SHAPES_at Ix0)) (mkPosition (-3) 20) = true.
Proof.
  split; [wf_by_computation|]. split; [|reflexivity].
  repeat constructor; simpl; lia.
Qed.

(** ** C2 *)

Lemma clearLines_removes_every_full_row_witness :
  exists g',
    clearLines pow_by_mul twoFullRowsGame = Ok g'
    /\ Forall (fun row => row_full row = false) (board g')
    /\ board g' = keep_open (board twoFullRowsGame)
                  ++ replicate (count_full (board twoFullRowsGame))
                       (emptyRow (gridWidth twoFullRowsGame))
    /\ length (board g') = length (board twoFullRowsGame)
    /\ (forall fuel y count b row,
          y < gridHeight twoFullRowsGame ->
          array_get b y = Some row -> row_full row = true ->
          clearLines_loop (S fuel) (gridWidth twoFullRowsGame)
            (gridHeight twoFullRowsGame) y count b
          = clearLines_loop fuel (gridWidth twoFullRowsGame)
              (gridHeight twoFullRowsGame) y (count + 1)
              (delete (Z.to_nat y) b ++ [emptyRow (gridWidth twoFullRowsGame)])).
Proof.
  apply (clearLines_removes_every_full_row pow_by_mul twoFullRowsGame).
  wf_by_computation.
Defined.

(** ** C3 *)

Lemma clearLines_counter_and_level_witness :
  exists g',
    clearLines pow_by_mul twoFullRowsGame = Ok g'
    /\ linesCleared g' = linesCleared twoFullRowsGame
                         + Z.of_nat (count_full (board twoFullRowsGame))
    /\ level g' = Z.max (level twoFullRowsGame) (linesCleared g' / 10 + 1)
    /\ (level twoFullRowsGame < level g'
        <-> level twoFullRowsGame < linesCleared g' / 10 + 1)
    /\ (level twoFullRowsGame < linesCleared g' / 10 + 1 ->
        level g' = linesCleared g' / 10 + 1)
    /\ (linesCleared g' / 10 + 1 <= level twoFullRowsGame ->
        level g' = level twoFullRowsGame).
Proof.
  apply (clearLines_counter_and_level pow_by_mul twoFullRowsGame).
  - wf_by_computation.
  - reflexivity.
Defined.

(** ** C4 *)

Lemma placePiece_awards_once_witness :
  exists b g',
    writeCells (gridWidth lockingGame) (gridHeight lockingGame)
      (currentPosition lockingGame) (colorIndex (SHAPES_at Ix1) + 1)
      (shape (SHAPES_at Ix1)) (board lockingGame) = Ok b
    /\ placePiece pow_by_mul lockingGame = Ok g'
    /\ linesCleared g' = linesCleared lockingGame + Z.of_nat (count_full b)
    /\ (count_full b = 0%nat -> score g' = score lockingGame)
    /\ ((1 <= count_full b <= 4)%nat ->
        score g' = jsnum_add (score lockingGame)
                     (Num (nth (count_full b) SCORE_PER_LINE 0
                           * level lockingGame)))
    /\ SCORE_PER_LINE = [0; 100; 300; 500; 800].
Proof.
  apply (placePiece_awards_once pow_by_mul lockingGame (SHAPES_at Ix1)).
  - wf_by_computation.
  - reflexivity.
Defined.

(** ** C5 *)

Lemma spawnNewPiece_catalog_witness :
  currentPosition (spawnNewPiece lockingGame)
  = spawnPosition lockingGame (SHAPES_at Ix1)
  /\ x (spawnPosition lockingGame (SHAPES_at Ix1)) = gridWidth lockingGame / 2
  /\ y (spawnPosition lockingGame (SHAPES_at Ix1))
     = gridHeight lockingGame - 1 - max_dy (shape (SHAPES_at Ix1))
  /\ (isValidMove lockingGame (Some (SHAPES_at Ix1))
        (spawnPosition lockingGame (SHAPES_at Ix1)) = true ->
      currentPiece (spawnNewPiece lockingGame) = Some (SHAPES_at Ix1)
      /\ gameState (spawnNewPiece lockingGame) = gameState lockingGame)
  /\ (isValidMove lockingGame (Some (SHAPES_at Ix1))
        (spawnPosition lockingGame (SHAPES_at Ix1)) = false ->
      currentPiece (spawnNewPiece lockingGame) = None
      /\ gameState (spawnNewPiece lockingGame) = GAME_OVER)
  /\ (forall op g0 rnd g1 rnd1,
        gameState g0 = PLAYING ->
        step pow_by_mul op g0 rnd = Ok (g1, rnd1) ->
        gameState g1 = GAME_OVER ->
        exists gs, gameState gs = PLAYING /\ g1 = spawnNewPiece gs).
Proof.
  apply (spawnNewPiece_catalog pow_by_mul lockingGame (SHAPES_at Ix1)).
  - simpl. right. left. reflexivity.
  - reflexivity.
Defined.

(** ** C6 *)

Lemma run_deterministic_given_draws_witness :
  game_of (run pow_by_mul [OpUpdate 0.016%float selectFirst; OpMoveDown]
             awaitingGame (rnd_const Ix1))
  = game_of (run pow_by_mul [OpUpdate 0.016%float selectFirst; OpMoveDown]
               awaitingGame (fun n => rnd_const Ix1 (S n)))
  /\ (forall deltaTime inputs r1 r2,
        currentPiece awaitingGame <> None \/ inputSelectShape inputs = None ->
        game_of (update pow_by_mul deltaTime inputs awaitingGame r1)
        = game_of (update pow_by_mul deltaTime inputs awaitingGame r2)).
Proof.
  apply (run_deterministic_given_draws pow_by_mul
           [OpUpdate 0.016%float selectFirst; OpMoveDown] awaitingGame
           (rnd_const Ix1) (fun n => rnd_const Ix1 (S n))).
  intros n. reflexivity.
Defined.

(** One frame from one engine state with one selection input, under two
    different answers of [Math.random]: the preview queues differ. *)
Lemma update_depends_on_Math_random :
  game_of (update pow_by_mul 0.016%float selectFirst awaitingGame (rnd_const Ix0))
  <> game_of (update pow_by_mul 0.016%float selectFirst awaitingGame (rnd_const Ix1)).
Proof. vm_compute. intros H. discriminate H. Qed.

(** ** C7 *)

Lemma selectShape_queue_witness :
  let g := awaitingGame in
  let rnd := rnd_const Ix1 in
  let fresh := SHAPES_at (rnd O) in
  let spawned chosen rest :=
    (spawnNewPiece
       (set_nextShapes (rest ++ [fresh]) (set_currentPiece (Some chosen) g)),
     fun n => rnd (S n)) in
  (forall index, index < 0 \/ 3 <= index ->
     selectShape index g rnd = selectShape 0 g rnd)
  /\ selectShape 0 g rnd = spawned (SHAPES_at Ix0) [SHAPES_at Ix2; SHAPES_at Ix3]
  /\ selectShape 1 g rnd = spawned (SHAPES_at Ix2) [SHAPES_at Ix0; SHAPES_at Ix3]
  /\ selectShape 2 g rnd = spawned (SHAPES_at Ix3) [SHAPES_at Ix0; SHAPES_at Ix2]
  /\ nextShapes (fst (selectShape 0 g rnd)) = [SHAPES_at Ix2; SHAPES_at Ix3; fresh]
  /\ nextShapes (fst (selectShape 1 g rnd)) = [SHAPES_at Ix0; SHAPES_at Ix3; fresh]
  /\ nextShapes (fst (selectShape 2 g rnd)) = [SHAPES_at Ix0; SHAPES_at Ix2; fresh].
Proof.
  apply (selectShape_queue awaitingGame (rnd_const Ix1)
           (SHAPES_at Ix0) (SHAPES_at Ix2) (SHAPES_at Ix3)).
  - reflexivity.
  - reflexivity.
Defined.

(** ** C8 *)

Lemma game_over_is_terminal_witness :
  moveDown pow_by_mul overGame = Ok overGame
  /\ (forall direction, moveHorizontal direction overGame = overGame)
  /\ (forall deltaTime inputs,
        update pow_by_mul deltaTime inputs overGame (rnd_const Ix1)
        = Ok (overGame, rnd_const Ix1))
  /\ (forall ops, Forall is_move_or_update ops ->
        run pow_by_mul ops overGame (rnd_const Ix1)
        = Ok (overGame, rnd_const Ix1))
  /\ (forall ops g' rnd',
        run pow_by_mul ops overGame (rnd_const Ix1) = Ok (g', rnd') ->
        gameState g' = GAME_OVER).
Proof.
  apply (game_over_is_terminal pow_by_mul overGame (rnd_const Ix1)).
  reflexivity.
Defined.

(** ** C9 *)



(** ** C10 *)

Lemma selectShape_ignores_active_piece_witness :
  let g := lockingGame in
  let rnd := rnd_const Ix4 in
  selectShape 1 g rnd
  = (spawnNewPiece
       (set_nextShapes
          (delete (Z.to_nat 1) (nextShapes g) ++ [SHAPES_at (rnd O)])
          (set_currentPiece (Some (SHAPES_at Ix2)) g)),
     fun n => rnd (S n))
  /\ selectShape 1 g rnd = selectShape 1 (set_currentPiece None g) rnd
  /\ board (fst (selectShape 1 g rnd)) = board g
  /\ (forall deltaTime inputs,
        update pow_by_mul deltaTime inputs g rnd
        = update pow_by_mul deltaTime
            (mkInputs (moveLeft inputs) (moveRight inputs) (drop inputs) None)
            g rnd)
  /\ (forall deltaTime inputs g' rnd',
        update pow_by_mul deltaTime inputs g rnd = Ok (g', rnd') ->
        nextShapes g' = nextShapes g /\ rnd' = rnd).
Proof.
  apply (selectShape_ignores_active_piece pow_by_mul lockingGame
           (rnd_const Ix4) (SHAPES_at Ix1) 1 (SHAPES_at Ix2)).
  - reflexivity.
  - reflexivity.
  - lia.
  - reflexivity.
Defined.

(** * Further properties of the engine *)

Lemma SHAPES_at_in i : In (SHAPES_at i) SHAPES.
Proof. destruct i; simpl; tauto. Qed.

Lemma maxY_of_ge offsets :
  forall d, In d offsets -> snd d <= maxY_of offsets.
Proof.
  unfold maxY_of.
  assert (Hacc : forall (l : list (Z * Z)) acc,
            acc <= fold_left (fun maxY d => if maxY <? snd d then snd d else maxY) l acc
            /\ forall d, In d l ->
                 snd d <= fold_left (fun maxY d => if maxY <? snd d then snd d else maxY) l acc).
  { induction l as [|e l IH]; intros acc; simpl.
    - split; [lia|tauto].
    - destruct (IH (if acc <? snd e then snd e else acc)) as [Hge Hin].
      destruct (acc <? snd e) eqn:E;
        [apply Z.ltb_lt in E|apply Z.ltb_ge in E];
        (split; [lia|]); intros d [<-|Hd]; try lia; by apply Hin. }
  intros d Hd. by apply (Hacc offsets 0).
Qed.

Lemma keep_open_no_full b : count_full b = O -> keep_open b = b.
Proof.
  unfold count_full, keep_open. induction b as [|row b IH]; simpl; [done|].
  destruct (row_full row); simpl; [done|]. intros Hb. by rewrite IH.
Qed.

Lemma core_inv_same g g' : same_core g g' -> core_inv g -> core_inv g'.
Proof.
  intros (Hb & HW & HH & Hq & Hs & Hl & Hv) (Hwf & Hfull & Hcat & Hsc & Hlines & Hlev).
  unfold core_inv. rewrite Hb, Hq, Hs, Hl, Hv.
  split; [by apply (wf_frame g)|done].
Qed.

Lemma piece_inv_spawn g :
  wf g -> (forall p, currentPiece g = Some p -> In p SHAPES) ->
  piece_inv (spawnNewPiece g).
Proof.
  intros Hwf Hcat p. destruct (currentPiece g) as [q|] eqn:Hq.
  - rewrite (spawnNewPiece_spec g q Hq).
    destruct (isValidMove g (Some q) _) eqn:Hv; simpl; [|done].
    rewrite Hq. intros [= <-]. split; [by apply Hcat|]. split.
    + rewrite <- Hv.
      exact (isValidMove_frame _ g (Some q) _ eq_refl eq_refl eq_refl).
    + apply List.Forall_forall. intros d Hd.
      pose proof (maxY_of_ge (shape q) d Hd). simpl. lia.
  - unfold spawnNewPiece. simpl. rewrite Hq. simpl. rewrite Hq. done.
Qed.

Lemma count_full_open b :
  Forall (fun row => row_full row = false) b -> count_full b = O.
Proof.
  unfold count_full. induction 1 as [|row b Hrow _ IH]; simpl; [done|].
  by rewrite Hrow.
Qed.

Lemma count_full_insert b i row :
  (count_full (<[i := row]> b) <= S (count_full b))%nat.
Proof.
  unfold count_full. revert i. induction b as [|r b IH]; intros i; simpl; [lia|].
  destruct i as [|i]; simpl.
  - destruct (row_full row), (row_full r); simpl; lia.
  - specialize (IH i). destruct (row_full r); simpl; lia.
Qed.

Lemma writeCells_count_full W H pos value offsets :
  forall b b',
    writeCells W H pos value offsets b = Ok b' ->
    (count_full b' <= count_full b + length offsets)%nat.
Proof.
  induction offsets as [|[dx dy] rest IH]; intros b b' Hw; simpl in Hw.
  - injection Hw as <-. lia.
  - destruct (_ && _) in Hw.
    + destruct (b !! _) as [row|]; [|done].
      apply IH in Hw.
      pose proof (count_full_insert b (Z.to_nat (y pos + dy))
                    (row_set row (Z.to_nat (x pos + dx)) value)).
      simpl. lia.
    + apply IH in Hw. simpl. lia.
Qed.

Lemma catalog_four_cells p : In p SHAPES -> length (shape p) = 4%nat.
Proof.
  intros Hin. simpl in Hin.
  repeat (destruct Hin as [<-|Hin]; [reflexivity|]). destruct Hin.
Qed.

Lemma line_score_small n lvl :
  0 <= n <= 4 -> 0 <= lvl ->
  exists t, line_score n lvl = Num t /\ 0 <= t.
Proof.
  intros Hn Hl. unfold line_score, array_get.
  destruct (n <? 0) eqn:E; [apply Z.ltb_lt in E; lia|].
  assert (Hc : (Z.to_nat n = 0 \/ Z.to_nat n = 1 \/ Z.to_nat n = 2
                \/ Z.to_nat n = 3 \/ Z.to_nat n = 4)%nat) by lia.
  destruct Hc as [->|[->|[->|[->| ->]]]]; simpl; eexists; (split; [reflexivity|lia]).
Qed.

Section Invariants.

Variable Math_pow : float -> Z -> float.

Lemma selectShape_inv index g rnd :
  core_inv g ->
  (piece_inv g \/ nextShapes g <> []) ->
  engine_inv (fst (selectShape index g rnd))
  /\ same_core_but_queue g (fst (selectShape index g rnd)).
Proof.
  intros Hcore Hpq. unfold selectShape.
  set (invalid := (index <? 0) || _ || _).
  set (index' := if invalid then 0 else index).
  destruct (invalid && negb _) eqn:Hret.
  { destruct Hpq as [Hpiece|Hne]; [by split|].
    exfalso. apply andb_prop in Hret as [Hinv Hnone].
    unfold index' in Hnone. rewrite Hinv in Hnone.
    destruct (nextShapes g); [done|]. simpl in Hnone. done. }
  simpl.
  set (g1 := set_nextShapes _ _).
  destruct (spawnNewPiece_frame g1) as (Hb & HW & HH & Hq & Hs & Hl & Hv & _).
  destruct Hcore as (Hwf & Hfull & Hcat & Hsc & Hlines & Hlev).
  assert (Hwf1 : wf g1) by (by apply (wf_frame g)).
  split; [|unfold same_core_but_queue; simpl; by rewrite Hb, HW, HH, Hs, Hl, Hv].
  split.
  - unfold core_inv. rewrite Hb, Hq, Hs, Hl, Hv. simpl.
    split; [by apply (wf_frame g1); [| |rewrite HW|rewrite HH]|].
    split; [done|]. split; [|done].
    apply Forall_app. split; [by apply Forall_delete|].
    constructor; [apply SHAPES_at_in|constructor].
  - apply piece_inv_spawn; [done|]. simpl. intros p Hp.
    unfold array_get in Hp. destruct (index' <? 0); [done|].
    apply list_elem_of_lookup_2 in Hp.
    rewrite List.Forall_forall in Hcat. apply Hcat. by apply list_elem_of_In.
Qed.

Lemma moveHorizontal_inv direction g :
  engine_inv g ->
  engine_inv (moveHorizontal direction g)
  /\ same_core g (moveHorizontal direction g).
Proof.
  intros [Hcore Hpiece].
  assert (Hsame : same_core g (moveHorizontal direction g)).
  { unfold moveHorizontal. destruct (negb _); [done|].
    destruct (isValidMove _ _ _); done. }
  split; [|done]. split; [by apply (core_inv_same g)|].
  unfold moveHorizontal. destruct (negb _); [done|].
  destruct (isValidMove g (currentPiece g) _) eqn:Hv; [|done].
  intros p Hp. simpl in Hp. destruct (Hpiece p Hp) as (Hin & _ & Hrows).
  split; [done|]. split; [|done].
  rewrite <- Hv, Hp.
  exact (isValidMove_frame _ g (Some p) _ eq_refl eq_refl eq_refl).
Qed.

Lemma startDropping_inv g :
  engine_inv g -> engine_inv (startDropping g) /\ same_core g (startDropping g).
Proof.
  intros Hinv. unfold startDropping. destruct (playing_with_piece g); [|by split].
  split; [|done]. destruct Hinv as [Hcore Hpiece].
  split; [by apply (core_inv_same g)|].
  intros p Hp. destruct (Hpiece p Hp) as (Hin & Hv & Hrows).
  split; [done|]. split; [|done]. rewrite <- Hv.
  exact (isValidMove_frame _ g (Some p) _ eq_refl eq_refl eq_refl).
Qed.

(** Called on an engine that keeps its invariants, [clearLines] finds no
    full row and changes nothing that matters. *)
Lemma clearLines_inv g :
  engine_inv g ->
  exists g', clearLines Math_pow g = Ok g' /\ engine_inv g' /\ same_core g g'.
Proof.
  intros [Hcore Hpiece].
  pose proof Hcore as (Hwf & Hfull & _).
  destruct (clearLines_ok Math_pow g Hwf)
    as (g' & Heq & Hb & HW & HH & Hp & Hpos & Hq & _ & _ & _ & Hl & Hs & Hv).
  rewrite Hfull in Hb, Hl, Hs, Hv. simpl in Hb, Hl, Hs, Hv.
  rewrite keep_open_no_full, app_nil_r in Hb by done.
  rewrite Z.add_0_r in Hl.
  assert (Hsame : same_core g g') by (unfold same_core; tauto).
  exists g'. split; [done|]. split; [|done]. split.
  - by apply (core_inv_same g).
  - intros p Hp'. rewrite Hp in Hp'.
    destruct (Hpiece p Hp') as (Hin & Hvalid & Hrows).
    rewrite Hpos, HH. split; [done|]. split; [|done].
    rewrite <- Hvalid. by apply isValidMove_frame.
Qed.

Lemma placePiece_inv g :
  engine_inv g ->
  exists g',
    placePiece Math_pow g = Ok g' /\ core_inv g' /\ currentPiece g' = None
    /\ progress_le g g'.
Proof.
  intros [Hcore Hpiece]. unfold placePiece.
  destruct (currentPiece g) as [p|] eqn:Hp.
  2:{ exists g. split; [done|]. split; [done|]. split; [done|].
      destruct Hcore as (_ & _ & _ & (s & Hs & Hs0) & _).
      split; [|lia]. exists s, s. split; [done|]. split; [done|lia]. }
  destruct (Hpiece p Hp) as (Hin & _ & _).
  destruct Hcore as (Hwf & Hfull & Hcat & (s & Hs & Hs0) & Hlines & Hlev).
  destruct Hwf as [HWv Hdims].
  destruct (writeCells_dims (gridWidth g) (gridHeight g) (currentPosition g)
              (colorIndex p + 1) (shape p) (board g) Hdims) as (b & Hb & Hbd).
  rewrite Hb. simpl.
  pose proof (writeCells_count_full _ _ _ _ _ _ _ Hb) as Hcount.
  rewrite Hfull, (catalog_four_cells p Hin) in Hcount. simpl in Hcount.
  assert (Hwf1 : wf (set_board b g)) by (by split).
  destruct (clearLines_ok Math_pow _ Hwf1)
    as (g1 & Heq & Hb1 & HW & HH & _ & _ & Hq & _ & _ & _ & Hl & Hsc & Hv).
  pose proof (clearLines_wf Math_pow _ _ Hwf1 Heq) as Hwf2.
  rewrite Heq. simpl. simpl in Hb1, HW, HH, Hq, Hl, Hsc, Hv.
  eexists. split; [reflexivity|]. simpl.
  assert (Hlev1 : 1 <= level g).
  { rewrite Hlev. unfold LEVEL_UP_LINES.
    pose proof (Z.div_pos (linesCleared g) 10). lia. }
  set (n := Z.of_nat (count_full b)) in *.
  assert (Hn : 0 <= n <= 4) by (unfold n; lia).
  assert (Hscore : exists s', score g1 = Num s' /\ s <= s').
  { rewrite Hsc. destruct (0 <? n); [|exists s; split; [done|lia]].
    destruct (line_score_small n (level g) Hn) as (t & Ht & Ht0); [lia|].
    rewrite Hs, Ht. simpl. exists (s + t). split; [done|lia]. }
  destruct Hscore as (s' & Hs' & Hle).
  split; [|split; [done|]].
  - unfold core_inv. simpl. split; [exact Hwf2|].
    split.
    { rewrite Hb1. apply count_full_open, Forall_app.
      split; [apply keep_open_all_open|].
      apply Forall_replicate, emptyRow_open. destruct HWv. lia. }
    split; [by rewrite Hq|]. split; [exists s'; split; [done|lia]|].
    split; [lia|]. rewrite Hv, Hl.
    destruct (0 <? n) eqn:En; [|apply Z.ltb_ge in En; by replace n with 0 by lia; rewrite Z.add_0_r].
    unfold LEVEL_UP_LINES in *.
    assert (linesCleared g / 10 <= (linesCleared g + n) / 10)
      by (apply Z.div_le_mono; lia).
    lia.
  - split; [exists s, s'; simpl; split; [done|]; split; [done|lia]|].
    simpl. lia.
Qed.

Lemma progress_le_refl g g' :
  core_inv g -> score g' = score g -> linesCleared g' = linesCleared g ->
  progress_le g g'.
Proof.
  intros (_ & _ & _ & (s & Hs & _) & _) Hsc Hl. split; [|lia].
  exists s, s. rewrite Hsc. split; [done|]. split; [done|lia].
Qed.

Lemma progress_le_trans g1 g2 g3 :
  progress_le g1 g2 -> progress_le g2 g3 -> progress_le g1 g3.
Proof.
  intros [(s1 & s2 & H1 & H2 & H12) Hl12] [(s2' & s3 & H2' & H3 & H23) Hl23].
  split; [|lia]. exists s1, s3. split; [done|]. split; [done|].
  rewrite H2 in H2'. injection H2' as <-. lia.
Qed.

Lemma progress_le_same g g' : core_inv g -> same_core g g' -> progress_le g g'.
Proof.
  intros Hcore (_ & _ & _ & _ & Hs & Hl & _). by apply progress_le_refl.
Qed.

Lemma moveDown_inv g :
  engine_inv g ->
  exists g', moveDown Math_pow g = Ok g' /\ engine_inv g' /\ progress_le g g'.
Proof.
  intros [Hcore Hpiece]. unfold moveDown.
  destruct (negb (playing_with_piece g)).
  { exists g. split; [done|]. split; [done|]. by apply progress_le_refl. }
  destruct (isValidMove g (currentPiece g) _) eqn:Hv; simpl.
  - eexists. split; [reflexivity|]. split; [|by apply progress_le_refl].
    split; [by apply (core_inv_same g)|].
    intros p Hp. simpl in Hp. destruct (Hpiece p Hp) as (Hin & _ & Hrows).
    split; [done|]. split.
    + rewrite <- Hv, Hp.
      exact (isValidMove_frame _ g (Some p) _ eq_refl eq_refl eq_refl).
    + simpl. eapply Forall_impl; [exact Hrows|]. simpl. intros d Hd. lia.
  - destruct (placePiece_inv g (conj Hcore Hpiece))
      as (g1 & Heq & Hcore1 & Hnone & Hle).
    rewrite Heq. simpl. eexists. split; [reflexivity|]. split.
    + split; [by apply (core_inv_same g1)|]. intros p Hp. done.
    + destruct Hle as [(s & s' & Hs & Hs' & Hss) Hl]. split; [|done].
      by exists s, s'.
Qed.

Lemma update_inv deltaTime inputs g rnd :
  engine_inv g ->
  exists g' rnd',
    update Math_pow deltaTime inputs g rnd = Ok (g', rnd')
    /\ engine_inv g' /\ progress_le g g'.
Proof.
  intros Hinv. pose proof Hinv as [Hcore Hpiece]. unfold update.
  destruct (gameState g);
    [|exists g, rnd; split; [done|]; split; [done|by apply progress_le_refl]].
  destruct (currentPiece g) as [p|] eqn:Hp.
  - set (g1 := if moveLeft inputs then moveHorizontal (-1) g else g).
    assert (H1 : engine_inv g1 /\ same_core g g1).
    { unfold g1. destruct (moveLeft inputs);
        [by apply moveHorizontal_inv|by split]. }
    destruct H1 as [Hinv1 Hsame1].
    set (g2 := if moveRight inputs then moveHorizontal 1 g1 else g1).
    assert (H2 : engine_inv g2 /\ same_core g1 g2).
    { unfold g2. destruct (moveRight inputs);
        [by apply moveHorizontal_inv|by split]. }
    destruct H2 as [Hinv2 Hsame2].
    set (g3 := if drop inputs then startDropping g2 else g2).
    assert (H3 : engine_inv g3 /\ same_core g2 g3).
    { unfold g3. destruct (drop inputs);
        [by apply startDropping_inv|by split]. }
    destruct H3 as [Hinv3 Hsame3].
    set (g4 := set_fallTimer _ g3).
    assert (Hinv4 : engine_inv g4).
    { destruct Hinv3 as [Hc3 Hp3]. split; [by apply (core_inv_same g3)|].
      intros q Hq. destruct (Hp3 q Hq) as (Hin & Hv & Hrows).
      split; [done|]. split; [|done]. rewrite <- Hv.
      exact (isValidMove_frame _ g3 (Some q) _ eq_refl eq_refl eq_refl). }
    assert (Hle4 : progress_le g g4).
    { apply (progress_le_trans g g1); [by apply progress_le_same|].
      apply (progress_le_trans g1 g2); [apply progress_le_same; [apply Hinv1|done]|].
      apply (progress_le_trans g2 g3); [apply progress_le_same; [apply Hinv2|done]|].
      apply progress_le_refl; [apply Hinv3|done|done]. }
    destruct (PrimFloat.leb _ _).
    + destruct (moveDown_inv g4 Hinv4) as (g' & Heq & Hinv' & Hle').
      rewrite Heq. simpl. exists g', rnd. split; [done|]. split; [done|].
      by apply (progress_le_trans g g4).
    + by exists g4, rnd.
  - destruct (inputSelectShape inputs) as [index|].
    + destruct (selectShape_inv index g rnd Hcore (or_introl Hpiece))
        as [Hinv' (_ & _ & _ & Hs & Hl & _)].
      destruct (selectShape index g rnd) as [g' rnd']. simpl in *.
      exists g', rnd'. split; [done|]. split; [done|]. by apply progress_le_refl.
    + exists g, rnd. split; [done|]. split; [done|]. by apply progress_le_refl.
Qed.

Lemma step_inv op g rnd :
  engine_inv g ->
  exists g' rnd',
    step Math_pow op g rnd = Ok (g', rnd') /\ engine_inv g' /\ progress_le g g'.
Proof.
  intros Hinv. pose proof Hinv as [Hcore Hpiece]. destruct op; simpl.
  - destruct (selectShape_inv index g rnd Hcore (or_introl Hpiece))
      as [Hinv' (_ & _ & _ & Hs & Hl & _)].
    destruct (selectShape index g rnd) as [g' rnd']. simpl in *.
    exists g', rnd'. split; [done|]. split; [done|]. by apply progress_le_refl.
  - destruct (moveHorizontal_inv direction g Hinv) as [Hinv' Hsame].
    eexists _, _. split; [reflexivity|]. split; [done|].
    by apply progress_le_same.
  - destruct (moveDown_inv g Hinv) as (g' & Heq & Hinv' & Hle).
    rewrite Heq. simpl. by exists g', rnd.
  - destruct (startDropping_inv g Hinv) as [Hinv' Hsame].
    eexists _, _. split; [reflexivity|]. split; [done|].
    by apply progress_le_same.
  - destruct (placePiece_inv g Hinv) as (g' & Heq & Hcore' & Hnone & Hle).
    rewrite Heq. simpl. exists g', rnd. split; [done|]. split; [|done].
    split; [done|]. intros p Hp. congruence.
  - destruct (clearLines_inv g Hinv) as (g' & Heq & Hinv' & Hsame).
    rewrite Heq. simpl. exists g', rnd. split; [done|]. split; [done|].
    by apply progress_le_same.
  - by apply update_inv.
Qed.

Lemma run_inv ops :
  forall g rnd,
    engine_inv g ->
    exists g' rnd',
      run Math_pow ops g rnd = Ok (g', rnd') /\ engine_inv g'
      /\ progress_le g g'.
Proof.
  induction ops as [|op ops IH]; intros g rnd Hinv; simpl.
  - exists g, rnd. split; [done|]. split; [done|].
    apply progress_le_refl; [apply Hinv|done|done].
  - destruct (step_inv op g rnd Hinv) as (g1 & r1 & Heq & Hinv1 & Hle1).
    rewrite Heq. simpl.
    destruct (IH g1 r1 Hinv1) as (g' & rnd' & Hrun & Hinv' & Hle').
    exists g', rnd'. split; [done|]. split; [done|].
    by apply (progress_le_trans g g1).
Qed.

Lemma generateShapes_catalog n :
  forall q rnd,
    Forall (fun s => In s SHAPES) q ->
    Forall (fun s => In s SHAPES) (fst (generateShapes n q rnd)).
Proof.
  induction n as [|n IH]; intros q rnd Hq; simpl; [done|].
  apply IH. apply Forall_app. split; [done|].
  constructor; [apply SHAPES_at_in|constructor].
Qed.

(** [init] on any engine whose grid is valid, whatever the rest of its
    state. *)
Lemma init_inv g rnd :
  valid_width (gridWidth g) -> 0 < gridHeight g ->
  exists g0 rnd0,
    init g rnd = Ok (g0, rnd0) /\ engine_inv g0
    /\ gridWidth g0 = gridWidth g /\ gridHeight g0 = gridHeight g
    /\ score g0 = Num 0 /\ linesCleared g0 = 0 /\ level g0 = 1
    /\ board g0 = replicate (Z.to_nat (gridHeight g)) (emptyRow (gridWidth g)).
Proof.
  intros HW HH. unfold init, emptyBoard.
  destruct (gridHeight g <=? 0) eqn:E; [apply Z.leb_le in E; lia|].
  rewrite (Array_fill0_ok _ HW). cbv beta iota delta [mbind result_bind].
  pose proof (generateShapes_catalog PREVIEW_COUNT [] rnd (List.Forall_nil _)) as Hcat.
  pose proof (generateShapes_length PREVIEW_COUNT [] rnd) as Hlen.
  destruct (generateShapes PREVIEW_COUNT [] rnd) as [q rnd1].
  simpl in Hcat, Hlen.
  set (g1 := mkGame _ _ _ _ _ q _ _ _ _ _ _ _).
  assert (Hcore1 : core_inv g1).
  { unfold core_inv, wf, board_dims, g1. simpl. split; [split; [done|]|].
    - split; [rewrite length_replicate; lia|].
      apply Forall_replicate, emptyRow_length. destruct HW; lia.
    - split; [|split; [done|split; [exists 0; split; [done|lia]|split; [lia|done]]]].
      apply count_full_open, Forall_replicate, emptyRow_open. destruct HW; lia. }
  assert (Hne : nextShapes g1 <> []) by (unfold g1; simpl; by destruct q).
  destruct (selectShape_inv 0 g1 rnd1 Hcore1 (or_intror Hne))
    as [Hinv (Hb & HW0 & HH0 & Hs & Hl & Hv)].
  destruct (selectShape 0 g1 rnd1) as [g0 rnd0]. simpl in *.
  exists g0, rnd0. split; [done|]. split; [done|]. by repeat split.
Qed.

Lemma reachable_inv cfg rnd ops :
  valid_config cfg ->
  exists g0 rnd0 g rnd1,
    init (constructor cfg) rnd = Ok (g0, rnd0)
    /\ run Math_pow ops g0 rnd0 = Ok (g, rnd1)
    /\ engine_inv g /\ progress_le g0 g
    /\ gridWidth g = gridWidth (constructor cfg)
    /\ gridHeight g = gridHeight (constructor cfg).
Proof.
  intros [HW HH].
  destruct (init_inv (constructor cfg) rnd HW HH)
    as (g0 & rnd0 & Hinit & Hinv0 & HW0 & HH0 & _).
  destruct (run_inv ops g0 rnd0 Hinv0) as (g & rnd1 & Hrun & Hinv & Hle).
  destruct (run_ok Math_pow ops g0 rnd0 (proj1 (proj1 Hinv0)))
    as (g' & rnd' & Hrun' & _ & HW1 & HH1).
  rewrite Hrun in Hrun'. injection Hrun' as <- <-.
  exists g0, rnd0, g, rnd1. repeat (split; [first [done|congruence]|]). congruence.
Qed.

Lemma count_full_zero b :
  count_full b = O -> Forall (fun row => row_full row = false) b.
Proof.
  unfold count_full. induction b as [|row b IH]; simpl; [constructor|].
  destruct (row_full row) eqn:E; simpl; [done|]. intros Hb. by constructor; [|apply IH].
Qed.

(** X1. After initialisation and any sequence of calls, no row of the
    board is full: every lock clears what it completes before control
    returns, and nothing else writes to the board. *)
Theorem reachable_board_has_no_full_row cfg rnd ops :
  valid_config cfg ->
  exists g0 rnd0 g rnd1,
    init (constructor cfg) rnd = Ok (g0, rnd0)
    /\ run Math_pow ops g0 rnd0 = Ok (g, rnd1)
    /\ Forall (fun row => row_full row = false) (board g).
Proof.
  intros Hcfg.
  destruct (reachable_inv cfg rnd ops Hcfg)
    as (g0 & rnd0 & g & rnd1 & Hinit & Hrun & [Hcore _] & _).
  exists g0, rnd0, g, rnd1. split; [done|]. split; [done|].
  apply count_full_zero, Hcore.
Qed.

(** X2. After initialisation and any sequence of calls, an active piece is
    a catalog shape and each of its four cells lies on the grid — column
    in [0, width), row in [0, height) — on an empty board cell. *)
Theorem active_piece_inside_grid cfg rnd ops :
  valid_config cfg ->
  exists g0 rnd0 g rnd1,
    init (constructor cfg) rnd = Ok (g0, rnd0)
    /\ run Math_pow ops g0 rnd0 = Ok (g, rnd1)
    /\ forall p, currentPiece g = Some p ->
         In p SHAPES
         /\ Forall (fun d =>
                      let cx := x (currentPosition g) + fst d in
                      let cy := y (currentPosition g) + snd d in
                      0 <= cx < gridWidth g /\ 0 <= cy < gridHeight g
                      /\ cell_at g cx cy = Some 0)
              (shape p).
Proof.
  intros Hcfg.
  destruct (reachable_inv cfg rnd ops Hcfg)
    as (g0 & rnd0 & g & rnd1 & Hinit & Hrun & [Hcore Hpiece] & _).
  exists g0, rnd0, g, rnd1. split; [done|]. split; [done|].
  intros p Hp. destruct (Hpiece p Hp) as (Hin & Hv & Hrows).
  split; [done|].
  destruct Hcore as ([_ [Hlen Hdims]] & _).
  simpl in Hv. rewrite List.forallb_forall in Hv.
  rewrite List.Forall_forall in Hrows. apply List.Forall_forall. intros d Hd.
  specialize (Hv d Hd). specialize (Hrows d Hd).
  apply (offset_ok_iff g (currentPosition g) d) in Hv; [|lia|done|done].
  destruct Hv as [Htop|(Hcol & Hrow & Hcell)]; [lia|].
  simpl. split; [done|]. split; [lia|]. by apply Hcell.
Qed.

(** X3. After initialisation and any sequence of calls the score is a
    non-negative integer (never [NaN]: no lock clears more than four
    rows), and no call makes it smaller. *)
Theorem score_never_decreases cfg rnd ops op :
  valid_config cfg ->
  exists g0 rnd0 g rnd1 g' rnd2 s s',
    init (constructor cfg) rnd = Ok (g0, rnd0)
    /\ run Math_pow ops g0 rnd0 = Ok (g, rnd1)
    /\ step Math_pow op g rnd1 = Ok (g', rnd2)
    /\ score g = Num s /\ score g' = Num s' /\ 0 <= s <= s'.
Proof.
  intros Hcfg.
  destruct (reachable_inv cfg rnd ops Hcfg)
    as (g0 & rnd0 & g & rnd1 & Hinit & Hrun & Hinv & _).
  destruct (step_inv op g rnd1 Hinv)
    as (g' & rnd2 & Hstep & _ & [(s & s' & Hs & Hs' & Hle) _]).
  exists g0, rnd0, g, rnd1, g', rnd2, s, s'.
  repeat (split; [done|]).
  destruct Hinv as [(_ & _ & _ & (s0 & Hs0 & Hpos) & _) _].
  rewrite Hs in Hs0. injection Hs0 as <-. lia.
Qed.

(** X4. After initialisation and any sequence of calls the level is
    [floor(linesCleared / 10) + 1], at least 1, and no call lowers the
    line counter or the level. *)
Theorem level_follows_lines cfg rnd ops op :
  valid_config cfg ->
  exists g0 rnd0 g rnd1 g' rnd2,
    init (constructor cfg) rnd = Ok (g0, rnd0)
    /\ run Math_pow ops g0 rnd0 = Ok (g, rnd1)
    /\ step Math_pow op g rnd1 = Ok (g', rnd2)
    /\ level g = linesCleared g / 10 + 1
    /\ level g' = linesCleared g' / 10 + 1
    /\ 0 <= linesCleared g <= linesCleared g'
    /\ 1 <= level g <= level g'.
Proof.
  intros Hcfg.
  destruct (reachable_inv cfg rnd ops Hcfg)
    as (g0 & rnd0 & g & rnd1 & Hinit & Hrun & Hinv & _).
  destruct (step_inv op g rnd1 Hinv)
    as (g' & rnd2 & Hstep & Hinv' & [_ Hlines]).
  exists g0, rnd0, g, rnd1, g', rnd2.
  repeat (split; [done|]).
  destruct Hinv as [(_ & _ & _ & _ & Hl0 & Hlev) _].
  destruct Hinv' as [(_ & _ & _ & _ & _ & Hlev') _].
  unfold LEVEL_UP_LINES in *.
  assert (linesCleared g / 10 <= linesCleared g' / 10)
    by (apply Z.div_le_mono; lia).
  pose proof (Z.div_pos (linesCleared g) 10).
  repeat split; lia.
Qed.

End Invariants.

Lemma reachable_board_has_no_full_row_witness :
  exists g0 rnd0 g rnd1,
    init (constructor sampleConfig) (rnd_const Ix3) = Ok (g0, rnd0)
    /\ run pow_by_mul sampleOps g0 rnd0 = Ok (g, rnd1)
    /\ Forall (fun row => row_full row = false) (board g).
Proof.
  apply (reachable_board_has_no_full_row pow_by_mul sampleConfig
           (rnd_const Ix3) sampleOps).
  split; [split; [reflexivity|discriminate]|reflexivity].
Defined.

Lemma active_piece_inside_grid_witness :
  exists g0 rnd0 g rnd1,
    init (constructor sampleConfig) (rnd_const Ix3) = Ok (g0, rnd0)
    /\ run pow_by_mul sampleOps g0 rnd0 = Ok (g, rnd1)
    /\ forall p, currentPiece g = Some p ->
         In p SHAPES
         /\ Forall (fun d =>
                      let cx := x (currentPosition g) + fst d in
                      let cy := y (currentPosition g) + snd d in
                      0 <= cx < gridWidth g /\ 0 <= cy < gridHeight g
                      /\ cell_at g cx cy = Some 0)
              (shape p).
Proof.
  apply (active_piece_inside_grid pow_by_mul sampleConfig
           (rnd_const Ix3) sampleOps).
  split; [split; [reflexivity|discriminate]|reflexivity].
Defined.

Lemma score_never_decreases_witness :
  exists g0 rnd0 g rnd1 g' rnd2 s s',
    init (constructor sampleConfig) (rnd_const Ix3) = Ok (g0, rnd0)
    /\ run pow_by_mul sampleOps g0 rnd0 = Ok (g, rnd1)
    /\ step pow_by_mul OpPlacePiece g rnd1 = Ok (g', rnd2)
    /\ score g = Num s /\ score g' = Num s' /\ 0 <= s <= s'.
Proof.
  apply (score_never_decreases pow_by_mul sampleConfig
           (rnd_const Ix3) sampleOps OpPlacePiece).
  split; [split; [reflexivity|discriminate]|reflexivity].
Defined.

Lemma level_follows_lines_witness :
  exists g0 rnd0 g rnd1 g' rnd2,
    init (constructor sampleConfig) (rnd_const Ix3) = Ok (g0, rnd0)
    /\ run pow_by_mul sampleOps g0 rnd0 = Ok (g, rnd1)
    /\ step pow_by_mul OpPlacePiece g rnd1 = Ok (g', rnd2)
    /\ level g = linesCleared g / 10 + 1
    /\ level g' = linesCleared g' / 10 + 1
    /\ 0 <= linesCleared g <= linesCleared g'
    /\ 1 <= level g <= level g'.
Proof.
  apply (level_follows_lines pow_by_mul sampleConfig
           (rnd_const Ix3) sampleOps OpPlacePiece).
  split; [split; [reflexivity|discriminate]|reflexivity].
Defined.

(** ** Locking writes the piece and nothing else *)

Lemma board_cell_insert b (Y X : nat) row value cx cy :
  b !! Y = Some row -> (X < length row)%nat ->
  0 <= cx -> 0 <= cy ->
  board_cell (<[Y := row_set row X value]> b) cx cy
  = if (Z.of_nat X =? cx) && (Z.of_nat Y =? cy) then Some value
    else board_cell b cx cy.
Proof.
  intros Hrow HX Hcx Hcy. unfold board_cell, array_get.
  destruct (cy <? 0) eqn:E; [apply Z.ltb_lt in E; lia|].
  pose proof (lookup_lt_Some _ _ _ Hrow) as HY.
  destruct (decide (Z.to_nat cy = Y)) as [<-|Hne].
  - rewrite list_lookup_insert_eq by done. rewrite Hrow.
    replace (Z.of_nat (Z.to_nat cy) =? cy) with true by (symmetry; apply Z.eqb_eq; lia).
    rewrite andb_true_r. unfold row_set. case_decide; [|lia].
    unfold row_get, array_get.
    destruct (cx <? 0) eqn:E2; [apply Z.ltb_lt in E2; lia|].
    destruct (decide (Z.to_nat cx = X)) as [<-|Hnx].
    + rewrite list_lookup_insert_eq by done.
      by replace (Z.of_nat (Z.to_nat cx) =? cx) with true
        by (symmetry; apply Z.eqb_eq; lia).
    + rewrite list_lookup_insert_ne by done.
      by replace (Z.of_nat X =? cx) with false
        by (symmetry; apply Z.eqb_neq; lia).
  - rewrite list_lookup_insert_ne by done.
    replace (Z.of_nat Y =? cy) with false by (symmetry; apply Z.eqb_neq; lia).
    by rewrite andb_false_r.
Qed.

Lemma writeCells_cells W H pos value offsets :
  forall b b',
    board_dims W H b ->
    writeCells W H pos value offsets b = Ok b' ->
    forall cx cy, 0 <= cx < W -> 0 <= cy < H ->
      board_cell b' cx cy
      = if covers pos offsets cx cy then Some value else board_cell b cx cy.
Proof.
  induction offsets as [|[dx dy] rest IH]; intros b b' Hdims Hw cx cy Hcx Hcy;
    simpl in Hw.
  - by injection Hw as <-.
  - unfold covers. simpl. fold (covers pos rest cx cy).
    destruct ((0 <=? y pos + dy) && (y pos + dy <? H)
              && (0 <=? x pos + dx) && (x pos + dx <? W)) eqn:Hin.
    + apply andb_prop in Hin as [Hin HxW]. apply andb_prop in Hin as [Hin Hx0].
      apply andb_prop in Hin as [Hy0 HyH].
      apply Z.leb_le in Hy0, Hx0. apply Z.ltb_lt in HyH, HxW.
      destruct (b !! Z.to_nat (y pos + dy)) as [row|] eqn:Hrow; [|done].
      destruct Hdims as [Hlen Hrows].
      assert (Hrl : Z.of_nat (length row) = W)
        by (eapply (proj1 (Forall_lookup _ _) Hrows); eauto).
      assert (Hdims1 : board_dims W H
                (<[Z.to_nat (y pos + dy) := row_set row (Z.to_nat (x pos + dx)) value]> b)).
      { split; [by rewrite length_insert|].
        apply Forall_insert; [done|]. unfold row_set.
        case_decide; [by rewrite length_insert|lia]. }
      rewrite (IH _ _ Hdims1 Hw cx cy Hcx Hcy).
      rewrite (board_cell_insert b _ _ row value cx cy Hrow) by lia.
      rewrite !Z2Nat.id by lia.
      destruct (covers pos rest cx cy); [by rewrite orb_true_r|].
      by rewrite orb_false_r.
    + rewrite (IH _ _ Hdims Hw cx cy Hcx Hcy).
      assert (Hno : (x pos + dx =? cx) && (y pos + dy =? cy) = false).
      { destruct (x pos + dx =? cx) eqn:Ex; [|done].
        destruct (y pos + dy =? cy) eqn:Ey; [|done].
        apply Z.eqb_eq in Ex, Ey. exfalso.
        rewrite Ex, Ey in Hin.
        assert (Ht : (0 <=? cy) && (cy <? H) && (0 <=? cx) && (cx <? W) = true).
        { repeat (apply andb_true_intro; split);
            first [apply Z.leb_le|apply Z.ltb_lt]; lia. }
        congruence. }
      by rewrite Hno.
Qed.

(** X5. The writing pass of [placePiece] succeeds on every well-formed
    board and changes exactly the grid cells that the piece covers, each
    to [colorIndex + 1]; every other cell keeps its value, and cells of
    the piece that lie off the grid are skipped without an error. *)
Theorem placePiece_writes_only_piece_cells g p :
  wf g ->
  currentPiece g = Some p ->
  exists b,
    writeCells (gridWidth g) (gridHeight g) (currentPosition g)
      (colorIndex p + 1) (shape p) (board g) = Ok b
    /\ board_dims (gridWidth g) (gridHeight g) b
    /\ forall cx cy, 0 <= cx < gridWidth g -> 0 <= cy < gridHeight g ->
         board_cell b cx cy
         = if covers (currentPosition g) (shape p) cx cy
           then Some (colorIndex p + 1)
           else board_cell (board g) cx cy.
Proof.
  intros [_ Hdims] _.
  destruct (writeCells_dims (gridWidth g) (gridHeight g) (currentPosition g)
              (colorIndex p + 1) (shape p) (board g) Hdims) as (b & Hb & Hbd).
  exists b. split; [done|]. split; [done|].
  by apply (writeCells_cells _ _ _ _ _ (board g)).
Qed.

Lemma placePiece_writes_only_piece_cells_witness :
  exists b,
    writeCells (gridWidth lockingGame) (gridHeight lockingGame)
      (currentPosition lockingGame) (colorIndex (SHAPES_at Ix1) + 1)
      (shape (SHAPES_at Ix1)) (board lockingGame) = Ok b
    /\ board_dims (gridWidth lockingGame) (gridHeight lockingGame) b
    /\ forall cx cy,
         0 <= cx < gridWidth lockingGame -> 0 <= cy < gridHeight lockingGame ->
         board_cell b cx cy
         = if covers (currentPosition lockingGame) (shape (SHAPES_at Ix1)) cx cy
           then Some (colorIndex (SHAPES_at Ix1) + 1)
           else board_cell (board lockingGame) cx cy.
Proof.
  apply (placePiece_writes_only_piece_cells lockingGame (SHAPES_at Ix1)).
  - wf_by_computation.
  - reflexivity.
Defined.

(** ** Initialisation *)

(** The engine that [init] hands to [spawnNewPiece]: an empty board [b],
    the first generated shape as the piece, the next three as the queue. *)
Lemma init_unfold g rnd :
  init g rnd
  = b ← emptyBoard (gridWidth g) (gridHeight g);
    Ok (spawnNewPiece
          (mkGame (gridWidth g) (gridHeight g) b (Some (SHAPES_at (rnd 0%nat)))
             (currentPosition g)
             [SHAPES_at (rnd 1%nat); SHAPES_at (rnd 2%nat); SHAPES_at (rnd 3%nat)]
             (Num 0) 0 1 0%float BASE_FALL_SPEED false PLAYING),
        fun n => rnd (S (S (S (S n))))).
Proof.
  unfold init. destruct (emptyBoard _ _) as [b| |]; [|done|done].
  cbv beta iota delta [mbind result_bind]. simpl generateShapes.
  cbv beta iota.
  match goal with |- Ok (selectShape 0 ?s ?r) = _ =>
    rewrite (selectShape_valid 0 s r (SHAPES_at (rnd 0%nat))) by (done || lia)
  end.
  reflexivity.
Qed.

Lemma empty_board_cell W H cx cy :
  0 <= cx < W -> 0 <= cy < H ->
  board_cell (replicate (Z.to_nat H) (emptyRow W)) cx cy = Some 0.
Proof.
  intros Hcx Hcy. unfold board_cell, array_get.
  destruct (cy <? 0) eqn:E; [apply Z.ltb_lt in E; lia|].
  rewrite lookup_replicate_2 by lia.
  unfold row_get, array_get, emptyRow.
  destruct (cx <? 0) eqn:E2; [apply Z.ltb_lt in E2; lia|].
  by rewrite lookup_replicate_2 by lia.
Qed.

Lemma spawn_valid_on_empty_board g p :
  In p SHAPES ->
  valid_width (gridWidth g) -> 5 <= gridWidth g -> 2 <= gridHeight g ->
  board g = replicate (Z.to_nat (gridHeight g)) (emptyRow (gridWidth g)) ->
  isValidMove g (Some p)
    (mkPosition (gridWidth g / 2) (gridHeight g - 1 - maxY_of (shape p))) = true.
Proof.
  intros Hin HWv HW HH Hb. simpl. apply List.forallb_forall. intros d Hd.
  apply offset_ok_iff.
  - lia.
  - rewrite Hb. apply Forall_replicate, emptyRow_length. lia.
  - rewrite Hb, length_replicate. lia.
  - right. unfold offset_allowed, cell_at. fold (board_cell (board g)).
    assert (Hbounds :
              0 <= gridWidth g / 2 + fst d < gridWidth g
              /\ 0 <= gridHeight g - 1 - maxY_of (shape p) + snd d < gridHeight g).
    { simpl in Hin.
      repeat (destruct Hin as [<-|Hin];
              [simpl in Hd;
               repeat (destruct Hd as [<-|Hd];
                       [cbn; Z.div_mod_to_equations; lia|]);
               destruct Hd|]).
      destruct Hin. }
    simpl. destruct Hbounds as [Hx Hy]. split; [done|]. split; [lia|].
    intros _. rewrite Hb. by apply empty_board_cell.
Qed.

(** X6. On a grid at least 5 columns wide and 2 rows high, [init] —
    from any previous state of the engine — returns a [PLAYING] engine on
    an all-empty board with score 0, no lines, level 1, whose active piece
    is the first generated shape at its spawn position and whose preview
    queue holds the next three generated shapes. *)
Theorem init_starts_playing g rnd :
  valid_width (gridWidth g) -> 5 <= gridWidth g -> 2 <= gridHeight g ->
  exists g0,
    init g rnd = Ok (g0, fun n => rnd (S (S (S (S n)))))
    /\ gameState g0 = PLAYING
    /\ currentPiece g0 = Some (SHAPES_at (rnd 0%nat))
    /\ currentPosition g0 = spawnPosition g (SHAPES_at (rnd 0%nat))
    /\ nextShapes g0
       = [SHAPES_at (rnd 1%nat); SHAPES_at (rnd 2%nat); SHAPES_at (rnd 3%nat)]
    /\ board g0 = replicate (Z.to_nat (gridHeight g)) (emptyRow (gridWidth g))
    /\ score g0 = Num 0 /\ linesCleared g0 = 0 /\ level g0 = 1
    /\ isDropping g0 = false.
Proof.
  intros HWv HW HH. rewrite init_unfold. unfold emptyBoard.
  destruct (gridHeight g <=? 0) eqn:E; [apply Z.leb_le in E; lia|].
  rewrite (Array_fill0_ok _ HWv). cbv beta iota delta [mbind result_bind].
  set (gq := mkGame _ _ _ _ _ _ _ _ _ _ _ _ _).
  pose proof (SHAPES_at_in (rnd 0%nat)) as Hin.
  rewrite (spawnNewPiece_spec gq (SHAPES_at (rnd 0%nat)) eq_refl).
  rewrite (spawn_valid_on_empty_board gq (SHAPES_at (rnd 0%nat)) Hin HWv HW HH eq_refl).
  eexists. split; [reflexivity|]. simpl.
  unfold spawnPosition. rewrite (catalog_maxY _ Hin). by repeat split.
Qed.

(** X7. On a grid of fewer than 5 columns the I shape does not fit at the
    spawn column: if it is the first shape generated, [init] returns an
    engine that is already [GAME_OVER], without an active piece. *)
Theorem init_narrow_grid_game_over g rnd :
  valid_width (gridWidth g) -> gridWidth g <= 4 -> 0 < gridHeight g ->
  rnd 0%nat = Ix0 ->
  exists g0 rnd0,
    init g rnd = Ok (g0, rnd0)
    /\ gameState g0 = GAME_OVER /\ currentPiece g0 = None.
Proof.
  intros HWv HW HH Hrnd. rewrite init_unfold. unfold emptyBoard.
  destruct (gridHeight g <=? 0) eqn:E; [apply Z.leb_le in E; lia|].
  rewrite (Array_fill0_ok _ HWv). cbv beta iota delta [mbind result_bind].
  rewrite Hrnd.
  set (gq := mkGame _ _ _ _ _ _ _ _ _ _ _ _ _).
  rewrite (spawnNewPiece_spec gq (SHAPES_at Ix0) eq_refl).
  assert (Hv : isValidMove gq (Some (SHAPES_at Ix0))
                 (mkPosition (gridWidth gq / 2)
                    (gridHeight gq - 1 - maxY_of (shape (SHAPES_at Ix0)))) = false).
  { apply not_true_is_false. intros Hv. unfold isValidMove in Hv.
    rewrite List.forallb_forall in Hv.
    assert (Hd : In (2, 0) (shape (SHAPES_at Ix0))) by (simpl; tauto).
    specialize (Hv _ Hd).
    apply offset_ok_iff in Hv.
    - destruct Hv as [Htop|([_ Hcol] & _)]; simpl in *.
      + unfold maxY_of in Htop. simpl in Htop. lia.
      + destruct HWv. Z.div_mod_to_equations. lia.
    - simpl. lia.
    - simpl. apply Forall_replicate, emptyRow_length. destruct HWv. lia.
    - simpl. rewrite length_replicate. lia. }
  rewrite Hv. by eexists _, _.
Qed.

(** X8. [init] re-creates the whole state: its outcome depends on the
    grid dimensions and the random draws only, not on anything else the
    engine held before (score, level, speed, board, piece, queue, status). *)
Theorem init_forgets_previous_state g1 g2 rnd :
  gridWidth g1 = gridWidth g2 -> gridHeight g1 = gridHeight g2 ->
  init g1 rnd = init g2 rnd.
Proof.
  intros HW HH. rewrite !init_unfold, HW, HH.
  destruct (emptyBoard _ _) as [b| |]; [|done|done].
  cbv beta iota delta [mbind result_bind].
  set (p := SHAPES_at (rnd 0%nat)).
  match goal with |- Ok (spawnNewPiece ?s1, _) = Ok (spawnNewPiece ?s2, _) =>
    rewrite (spawnNewPiece_spec s1 p eq_refl),
            (spawnNewPiece_spec s2 p eq_refl)
  end.
  simpl. destruct (forallb _ _); reflexivity.
Qed.

Lemma init_starts_playing_witness :
  exists g0,
    init overGame (rnd_const Ix0)
    = Ok (g0, fun n => rnd_const Ix0 (S (S (S (S n)))))
    /\ gameState g0 = PLAYING
    /\ currentPiece g0 = Some (SHAPES_at (rnd_const Ix0 0%nat))
    /\ currentPosition g0 = spawnPosition overGame (SHAPES_at (rnd_const Ix0 0%nat))
    /\ nextShapes g0
       = [SHAPES_at (rnd_const Ix0 1%nat); SHAPES_at (rnd_const Ix0 2%nat);
          SHAPES_at (rnd_const Ix0 3%nat)]
    /\ board g0 = replicate (Z.to_nat (gridHeight overGame))
                    (emptyRow (gridWidth overGame))
    /\ score g0 = Num 0 /\ linesCleared g0 = 0 /\ level g0 = 1
    /\ isDropping g0 = false.
Proof.
  apply (init_starts_playing overGame (rnd_const Ix0)).
  - split; [reflexivity|discriminate].
  - discriminate.
  - discriminate.
Defined.

Lemma init_narrow_grid_game_over_witness :
  exists g0 rnd0,
    init (constructor (mkGridConfig (Some 4) None)) (rnd_const Ix0) = Ok (g0, rnd0)
    /\ gameState g0 = GAME_OVER /\ currentPiece g0 = None.
Proof.
  apply (init_narrow_grid_game_over
           (constructor (mkGridConfig (Some 4) None)) (rnd_const Ix0)).
  - split; [reflexivity|discriminate].
  - discriminate.
  - reflexivity.
  - reflexivity.
Defined.

Lemma init_forgets_previous_state_witness :
  init overGame (rnd_const Ix5) = init lockingGame (rnd_const Ix5).
Proof.
  apply (init_forgets_previous_state overGame lockingGame (rnd_const Ix5));
    reflexivity.
Defined.

(** ** Termination of the scan *)

Lemma constructor_width_nonzero cfg : gridWidth (constructor cfg) <> 0.
Proof.
  simpl. unfold or_default, GRID_WIDTH. destruct (width cfg) as [n|]; [|done].
  destruct (n =? 0) eqn:E; [done|]. by apply Z.eqb_neq in E.
Qed.

Lemma clearLines_loop_ends W H :
  W <> 0 ->
  forall fuel y count pre rest,
    0 <= y -> length pre = Z.to_nat y ->
    (Z.to_nat (H - y) + count_full rest < fuel)%nat ->
    clearLines_loop fuel W H y count (pre ++ rest) <> OutOfFuel.
Proof.
  intros HW. induction fuel as [|fuel IH]; intros y count pre rest Hy Hpre Hfuel;
    [lia|].
  simpl. destruct (y <? H) eqn:E; [|done]. apply Z.ltb_lt in E.
  destruct rest as [|row rest].
  { rewrite app_nil_r. unfold array_get.
    destruct (y <? 0); [done|]. by rewrite lookup_ge_None_2 by lia. }
  rewrite array_get_middle by done.
  assert (Hcons : count_full (row :: rest)
                  = ((if row_full row then 1 else 0) + count_full rest)%nat).
  { unfold count_full. simpl. by destruct (row_full row). }
  rewrite Hcons in Hfuel.
  destruct (row_full row) eqn:Hrow.
  - unfold Array_fill0.
    destruct ((W <? 0) || (4294967295 <? W)) eqn:Hbad; [done|].
    apply orb_false_elim in Hbad as [Hneg _]. apply Z.ltb_ge in Hneg.
    simpl. rewrite <- Hpre, delete_middle, <- app_assoc.
    apply IH; try done.
    rewrite count_full_app. unfold count_full at 2. simpl.
    fold (emptyRow W). rewrite emptyRow_open by lia. simpl. lia.
  - replace (pre ++ row :: rest) with ((pre ++ [row]) ++ rest)
      by (by rewrite <- app_assoc).
    apply IH; [lia|rewrite length_app; simpl; lia|lia].
Qed.

Lemma writeCells_ends W H pos value offsets :
  forall b, writeCells W H pos value offsets b <> OutOfFuel.
Proof.
  induction offsets as [|[dx dy] rest IH]; intros b; simpl; [done|].
  destruct (_ && _); [|apply IH]. destruct (b !! _); [apply IH|done].
Qed.

Section Termination.

Variable Math_pow : float -> Z -> float.

Lemma clearLines_ends g : gridWidth g <> 0 -> clearLines Math_pow g <> OutOfFuel.
Proof.
  intros HW. unfold clearLines.
  pose proof (clearLines_loop_ends (gridWidth g) (gridHeight g) HW
                (clearLines_budget (gridHeight g) (board g)) 0 0 [] (board g))
    as Hends.
  change ([] ++ board g) with (board g) in Hends.
  destruct (clearLines_loop _ _ _ _ _ _) as [[n b]| |].
  - simpl. destruct (0 <? n); [destruct (_ <? _)|]; done.
  - done.
  - exfalso. apply Hends; try done.
    unfold clearLines_budget. rewrite Z.sub_0_r.
    pose proof (count_full_le (board g)). lia.
Qed.

(** X9. The constructor never leaves a grid width of 0 (a 0 or missing
    width falls back to 10), and on an engine whose width is not 0 no
    call runs for ever: whatever the board holds, the scan of
    [clearLines] ends, with a result or with an exception. *)
Theorem no_call_diverges cfg op g rnd :
  gridWidth g = gridWidth (constructor cfg) ->
  gridWidth (constructor cfg) <> 0
  /\ step Math_pow op g rnd <> OutOfFuel.
Proof.
  intros HW. pose proof (constructor_width_nonzero cfg) as Hnz.
  split; [done|]. rewrite <- HW in Hnz.
  assert (Hplace : forall g0, gridWidth g0 = gridWidth g ->
                     placePiece Math_pow g0 <> OutOfFuel).
  { intros g0 H0. unfold placePiece. destruct (currentPiece g0) as [s|]; [|done].
    pose proof (writeCells_ends (gridWidth g0) (gridHeight g0)
                  (currentPosition g0) (colorIndex s + 1) (shape s) (board g0))
      as Hwrite.
    destruct (writeCells _ _ _ _ _ _) as [b| |]; simpl; [|done|done].
    pose proof (clearLines_ends (set_board b g0)) as Hc. simpl in Hc.
    rewrite H0 in Hc. specialize (Hc Hnz).
    destruct (clearLines Math_pow (set_board b g0)); done. }
  assert (Hdown : forall g0, gridWidth g0 = gridWidth g ->
                    moveDown Math_pow g0 <> OutOfFuel).
  { intros g0 H0. unfold moveDown. destruct (negb _); [done|].
    destruct (isValidMove _ _ _); simpl; [done|].
    specialize (Hplace g0 H0). destruct (placePiece Math_pow g0); done. }
  destruct op; simpl; try done.
  - specialize (Hdown g eq_refl). destruct (moveDown Math_pow g); done.
  - specialize (Hplace g eq_refl). destruct (placePiece Math_pow g); done.
  - pose proof (clearLines_ends g Hnz). destruct (clearLines Math_pow g); done.
  - unfold update. destruct (gameState g); [|done].
    destruct (currentPiece g); [|by destruct (inputSelectShape inputs)].
    destruct (PrimFloat.leb _ _); [|done].
    match goal with |- context [moveDown Math_pow ?s] =>
      assert (Hw : gridWidth s = gridWidth g)
    end.
    { simpl.
      destruct (drop inputs), (moveRight inputs), (moveLeft inputs);
        repeat first
          [ rewrite (proj1 (proj2 (startDropping_frame _)))
          | rewrite (proj1 (proj2 (moveHorizontal_frame _ _))) ];
        reflexivity. }
    specialize (Hdown _ Hw). by destruct (moveDown Math_pow _).
Qed.

End Termination.

(** X10. With a grid width of 0 the rows that the scan appends are full
    themselves ([[].every(...)] holds): from a board whose rows are all
    full, on a grid with at least one row, the loop of [clearLines] has
    no outcome for any amount of fuel. *)
Theorem clearLines_loop_width_zero_diverges H row rest fuel :
  0 < H ->
  forallb row_full (row :: rest) = true ->
  clearLines_loop fuel 0 H 0 0 (row :: rest) = OutOfFuel.
Proof.
  intros HH Hfull.
  apply (clearLines_loop_stuck 0 H [] fuel eq_refl eq_refl 0 0 [] row rest);
    [lia|done|done].
Qed.

Lemma no_call_diverges_witness :
  gridWidth (constructor (mkGridConfig (Some 0) (Some 3))) <> 0
  /\ step pow_by_mul OpPlacePiece lockingGame (rnd_const Ix1) <> OutOfFuel.
Proof.
  apply (no_call_diverges pow_by_mul (mkGridConfig (Some 0) (Some 3))
           OpPlacePiece lockingGame (rnd_const Ix1)).
  reflexivity.
Defined.

Lemma clearLines_loop_width_zero_diverges_witness :
  clearLines_loop 1000 0 3 0 0 [[]; []; []] = OutOfFuel.
Proof.
  apply (clearLines_loop_width_zero_diverges 3 [] [[]; []] 1000);
    reflexivity.
Defined.

(** ** Moving the piece *)

(** X11. A sideways move that goes through is undone by the opposite
    move: from a valid position, with the pivot column and the direction
    small enough for their sum to be exact
    ([|x| + |direction| < 2^53]), [moveHorizontal(d)] followed by
    [moveHorizontal(-d)] leaves the engine as it was, fall timer reset. *)
Theorem moveHorizontal_round_trip direction g :
  Z.abs (x (currentPosition g)) + Z.abs direction < 2 ^ 53 ->
  playing_with_piece g = true ->
  isValidMove g (currentPiece g) (currentPosition g) = true ->
  isValidMove g (currentPiece g)
    (mkPosition (x (currentPosition g) + direction) (y (currentPosition g)))
  = true ->
  currentPosition (moveHorizontal direction g)
  = mkPosition (x (currentPosition g) + direction) (y (currentPosition g))
  /\ moveHorizontal (- direction) (moveHorizontal direction g)
     = set_fallTimer 0%float g.
Proof.
  intros _ Hplay Hhere Hthere.
  assert (Hfirst : moveHorizontal direction g
                   = set_fallTimer 0%float
                       (set_currentPosition
                          (mkPosition (x (currentPosition g) + direction)
                             (y (currentPosition g))) g)).
  { unfold moveHorizontal. by rewrite Hplay, Hthere. }
  rewrite Hfirst. split; [done|].
  unfold moveHorizontal, playing_with_piece in *. simpl.
  destruct (gameState g); [|done]. destruct (currentPiece g) as [p|]; [|done].
  simpl.
  replace (x (currentPosition g) + direction + - direction)
    with (x (currentPosition g)) by lia.
  match goal with |- context [forallb ?f ?l] =>
    replace (forallb f l) with true
  end.
  destruct g as [W H b cp [px py] q sc l lv ft sp dr st]. reflexivity.
Qed.

Section Movement.

Variable Math_pow : float -> Z -> float.





End Movement.

Lemma moveHorizontal_round_trip_witness :
  currentPosition (moveHorizontal 1 hoveringGame)
  = mkPosition (x (currentPosition hoveringGame) + 1)
      (y (currentPosition hoveringGame))
  /\ moveHorizontal (- 1) (moveHorizontal 1 hoveringGame)
     = set_fallTimer 0%float hoveringGame.
Proof.
  apply (moveHorizontal_round_trip 1 hoveringGame); reflexivity.
Defined.

(** The round trip on the hovering T piece: one column right and back. *)
Example hoveringGame_round_trip_columns :
  (x (currentPosition hoveringGame),
   x (currentPosition (moveHorizontal 1 hoveringGame)),
   x (currentPosition (moveHorizontal (-1) (moveHorizontal 1 hoveringGame))))
  = (5, 6, 5).
Proof. reflexivity. Qed.

(** * The cube-counting quiz *)

(** ** Pile distribution *)

Lemma findSecond_Some L min p00 p01 p10 :
  findSecond L min p00 = Some (p01, p10) ->
  p10 = L - p00 - p01 /\ min <= p01 < p00 /\ min <= p10 < p00.
Proof.
  unfold findSecond. destruct (List.find _ _) as [first|] eqn:Hfind; [|done].
  intros [= <- <-]. apply List.find_some in Hfind as [Hin Hcond].
  apply list_elem_of_In, elem_of_seqZ in Hin.
  apply andb_prop in Hcond as [Hlo Hhi].
  apply Z.leb_le in Hlo. apply Z.ltb_lt in Hhi. lia.
Qed.

Lemma findSecond_complete L min p00 first :
  min <= first < p00 -> min <= L - p00 - first < p00 ->
  findSecond L min p00 <> None.
Proof.
  intros Hfirst Hsecond. unfold findSecond.
  destruct (List.find _ _) as [f|] eqn:Hfind; [done|].
  exfalso.
  pose proof (List.find_none _ _ Hfind first) as Hnone. simpl in Hnone.
  assert (Hin : In first (seqZ min (p00 - min)))
    by (apply list_elem_of_In, elem_of_seqZ; lia).
  specialize (Hnone Hin).
  apply andb_false_iff in Hnone as [Hlo|Hhi];
    [apply Z.leb_gt in Hlo|apply Z.ltb_ge in Hhi]; lia.
Qed.

Lemma findDistribution_Some L min candidates p00 p01 p10 :
  findDistribution L min candidates = Some (p00, p01, p10) ->
  In p00 candidates /\ findSecond L min p00 = Some (p01, p10).
Proof.
  induction candidates as [|c rest IH]; simpl; [done|].
  destruct (findSecond L min c) as [[a b]|] eqn:Hc.
  - intros [= <- <- <-]. by split; [left|].
  - intros Hrest. destruct (IH Hrest). by split; [right|].
Qed.

Lemma findDistribution_complete L min candidates p00 :
  In p00 candidates -> findSecond L min p00 <> None ->
  findDistribution L min candidates <> None.
Proof.
  induction candidates as [|c rest IH]; simpl; [done|].
  intros [->|Hin] Hsome.
  - by destruct (findSecond L min p00) as [[a b]|].
  - destruct (findSecond L min c) as [[a b]|]; [done|by apply IH].
Qed.

(** X14. For every level the three piles that [generateLevel] sets add
    up to the level, which is also the correct answer: the cubes shown
    are as many as the answer expected. *)
Theorem generateLevel_piles_sum L rnd :
  let lvl := fst (generateLevel L rnd) in
  pile00 (pileCounts lvl) + pile01 (pileCounts lvl) + pile10 (pileCounts lvl) = L
  /\ correctAnswer lvl = L.
Proof.
  unfold generateLevel. destruct (generateOptions L rnd) as [opts rnd'].
  simpl. split; [|done]. unfold generatePiles.
  destruct (L <? 6); [simpl; lia|].
  destruct (findDistribution _ _ _) as [[[a b] c]|] eqn:Hfind; [|simpl; lia].
  apply findDistribution_Some in Hfind as [_ Hsec].
  apply findSecond_Some in Hsec. simpl. lia.
Qed.

(** X15. From level 6 on the search of [generateLevel] always finds a
    distribution (the fallback is never used): pile 00 is strictly the
    tallest, at most [floor(2L/3)] high, and the two other piles hold at
    least [ceil(L/6)] cubes each, so none is empty.  Below level 6 all
    cubes are in pile 00. *)
Theorem generatePiles_balanced L :
  (6 <= L ->
   pile01 (generatePiles L) < pile00 (generatePiles L)
   /\ pile10 (generatePiles L) < pile00 (generatePiles L)
   /\ pile00 (generatePiles L) <= (L * 2) / 3
   /\ 1 <= Math_ceil_div L 6 <= pile01 (generatePiles L)
   /\ Math_ceil_div L 6 <= pile10 (generatePiles L))
  /\ (L < 6 -> generatePiles L = mkPileCounts L 0 0).
Proof.
  split.
  - intros HL. unfold generatePiles.
    destruct (L <? 6) eqn:E; [apply Z.ltb_lt in E; lia|].
    set (m := Math_ceil_div L 6). set (M := (L * 2) / 3).
    assert (Hm : 6 * m - 5 <= L <= 6 * m)
      by (unfold m, Math_ceil_div; Z.div_mod_to_equations; lia).
    assert (HM : 3 * M <= 2 * L <= 3 * M + 2)
      by (unfold M; Z.div_mod_to_equations; lia).
    destruct (findDistribution L m (p00_candidates m M)) as [[[a b] c]|] eqn:Hfind.
    + apply findDistribution_Some in Hfind as [Hin Hsec].
      apply findSecond_Some in Hsec.
      apply list_elem_of_In in Hin. unfold p00_candidates in Hin.
      rewrite elem_of_reverse, elem_of_seqZ in Hin. simpl. lia.
    + exfalso. revert Hfind.
      apply (findDistribution_complete L m _ (Z.min (L - 2 * m) M)).
      * apply list_elem_of_In. unfold p00_candidates.
        rewrite elem_of_reverse, elem_of_seqZ. lia.
      * apply (findSecond_complete L m _ m); lia.
  - intros HL. unfold generatePiles.
    destruct (L <? 6) eqn:E; [done|apply Z.ltb_ge in E; lia].
Qed.

(** ** Answer options *)

Lemma fillOptions_step fuel i startValue options :
  Z.of_nat (length options) < 4 -> 0 < startValue + i -> i <= 10 ->
  fillOptions (S fuel) i startValue options
  = fillOptions fuel (i + 1) startValue (Set_add (startValue + i) options).
Proof.
  intros Hsize Hpos Hi. simpl.
  destruct (Z.of_nat (length options) <? 4) eqn:E1; [|apply Z.ltb_ge in E1; lia].
  destruct (0 <? startValue + i) eqn:E2; [|apply Z.ltb_ge in E2; lia].
  destruct (10 <? i) eqn:E3; [apply Z.ltb_lt in E3; lia|done].
Qed.

Lemma fillOptions_full fuel i startValue options :
  4 <= Z.of_nat (length options) ->
  fillOptions fuel i startValue options = options.
Proof.
  intros Hsize. destruct fuel; simpl; [done|].
  destruct (Z.of_nat (length options) <? 4) eqn:E1; [apply Z.ltb_lt in E1; lia|done].
Qed.

(** Twelve iterations are all that the loop can make. *)
Lemma fillOptions_fuel fuel :
  forall i extra startValue options,
    0 <= i <= 11 -> 12 - i <= Z.of_nat fuel ->
    fillOptions (fuel + extra) i startValue options
    = fillOptions fuel i startValue options.
Proof.
  induction fuel as [|fuel IH]; intros i extra startValue options Hi Hfuel; [lia|].
  simpl. destruct (_ <? 4); [|done].
  destruct (10 <? i) eqn:E; [done|]. apply Z.ltb_ge in E. apply IH; lia.
Qed.

Lemma Set_add_new v set : ~ In v set -> Set_add v set = set ++ [v].
Proof.
  intros Hnew. unfold Set_add.
  destruct (existsb (Z.eqb v) set) eqn:E; [|done].
  apply List.existsb_exists in E as (w & Hw & Heq). apply Z.eqb_eq in Heq.
  by subst.
Qed.

Lemma Set_add_old v set : In v set -> Set_add v set = set.
Proof.
  intros Hold. unfold Set_add.
  destruct (existsb (Z.eqb v) set) eqn:E; [done|].
  exfalso. apply not_true_iff_false in E. apply E.
  apply List.existsb_exists. exists v. split; [done|apply Z.eqb_refl].
Qed.

Lemma fillOptions_sequential s k :
  1 <= s -> 0 <= k <= 2 ->
  fillOptions 12 0 s [s + k] ≡ₚ [s; s + 1; s + 2; s + 3].
Proof.
  intros Hs Hk.
  assert (Hcases : k = 0 \/ k = 1 \/ k = 2) by lia.
  destruct Hcases as [->|[->| ->]].
  - rewrite fillOptions_step, Set_add_old by (simpl; lia).
    rewrite fillOptions_step, Set_add_new by (simpl; lia).
    rewrite fillOptions_step, Set_add_new by (simpl; lia).
    rewrite fillOptions_step, Set_add_new by (simpl; lia).
    rewrite fillOptions_full by (simpl; lia). simpl.
    replace (s + 0) with s by lia.
    replace (s + (0 + 1)) with (s + 1) by lia.
    replace (s + (0 + 1 + 1)) with (s + 2) by lia.
    replace (s + (0 + 1 + 1 + 1)) with (s + 3) by lia. done.
  - rewrite fillOptions_step, Set_add_new by (simpl; lia).
    rewrite fillOptions_step, Set_add_old by (simpl; lia).
    rewrite fillOptions_step, Set_add_new by (simpl; lia).
    rewrite fillOptions_step, Set_add_new by (simpl; lia).
    rewrite fillOptions_full by (simpl; lia). simpl.
    replace (s + 0) with s by lia.
    replace (s + (0 + 1 + 1)) with (s + 2) by lia.
    replace (s + (0 + 1 + 1 + 1)) with (s + 3) by lia.
    apply Permutation_swap.
  - rewrite fillOptions_step, Set_add_new by (simpl; lia).
    rewrite fillOptions_step, Set_add_new by (simpl; lia).
    rewrite fillOptions_step, Set_add_old by (simpl; lia).
    rewrite fillOptions_step, Set_add_new by (simpl; lia).
    rewrite fillOptions_full by (simpl; lia). simpl.
    replace (s + 0) with s by lia.
    replace (s + (0 + 1)) with (s + 1) by lia.
    replace (s + (0 + 1 + 1 + 1)) with (s + 3) by lia.
    rewrite (Permutation_swap s (s + 2)). apply Permutation_skip.
    apply Permutation_swap.
Qed.

Lemma swap_Permutation a i j :
  (i < length a)%nat -> (j < length a)%nat -> swap a i j ≡ₚ a.
Proof.
  intros Hi Hj. unfold swap.
  destruct (lookup_lt_is_Some_2 a i Hi) as [ai Hai].
  destruct (lookup_lt_is_Some_2 a j Hj) as [aj Haj].
  rewrite Hai, Haj. by apply Permutation_insert_swap.
Qed.

Lemma shuffle_Permutation i :
  forall a rnd,
    in_unit_interval rnd -> (i < length a)%nat ->
    fst (shuffle i a rnd) ≡ₚ a.
Proof.
  induction i as [|i IH]; intros a rnd Hrnd Hi; simpl; [done|].
  pose proof (Hrnd O (Z.of_nat (S i) + 1)) as Hj.
  assert (Hperm : swap a (S i) (Z.to_nat (rnd O (Z.of_nat (S i) + 1))) ≡ₚ a)
    by (apply swap_Permutation; lia).
  rewrite IH.
  - done.
  - intros k n Hn. by apply Hrnd.
  - rewrite Hperm. lia.
Qed.

(** X16. For a correct answer of at least 1, small enough for the
    option values to be exact ([correctAnswer + 3 < 2^53]),
    [generateOptions] returns four distinct consecutive positive integers
    in some order — a permutation of [start .. start + 3] with
    [start = max(1, correctAnswer - r)], [r] the first random draw below
    3 — and the correct answer is one of them. *)
Theorem generateOptions_sequential correct rnd :
  1 <= correct ->
  correct + 3 < 2 ^ 53 ->
  in_unit_interval rnd ->
  let start := Z.max 1 (correct - rnd O 3) in
  fst (generateOptions correct rnd) ≡ₚ [start; start + 1; start + 2; start + 3]
  /\ 1 <= start <= correct /\ correct <= start + 2
  /\ In correct (fst (generateOptions correct rnd))
  /\ length (fst (generateOptions correct rnd)) = 4%nat
  /\ NoDup (fst (generateOptions correct rnd)).
Proof.
  intros Hc _ Hrnd start.
  pose proof (Hrnd O 3) as Hr.
  assert (Hstart : 1 <= start <= correct /\ correct <= start + 2)
    by (unfold start; lia).
  assert (Hperm : fst (generateOptions correct rnd)
                  ≡ₚ [start; start + 1; start + 2; start + 3]).
  { unfold generateOptions. simpl. fold start.
    pose proof (fillOptions_sequential start (correct - start)) as Hfill.
    replace (start + (correct - start)) with correct in Hfill by lia.
    rewrite shuffle_Permutation.
    - apply Hfill; lia.
    - intros k n Hn. by apply Hrnd.
    - rewrite Hfill by lia. simpl. lia. }
  split; [done|]. split; [lia|]. split; [lia|].
  split; [|split].
  - apply (Permutation_in correct (Permutation_sym Hperm)). simpl. lia.
  - by rewrite Hperm.
  - rewrite Hperm.
    repeat (constructor; [rewrite list_elem_of_In; simpl; lia|]). constructor.
Qed.

Lemma generateOptions_sequential_witness :
  let rnd : IntSource := fun _ n => n - 1 in
  let start := Z.max 1 (2 - rnd O 3) in
  fst (generateOptions 2 rnd) ≡ₚ [start; start + 1; start + 2; start + 3]
  /\ 1 <= start <= 2 /\ 2 <= start + 2
  /\ In 2 (fst (generateOptions 2 rnd))
  /\ length (fst (generateOptions 2 rnd)) = 4%nat
  /\ NoDup (fst (generateOptions 2 rnd)).
Proof.
  apply (generateOptions_sequential 2 (fun _ n => n - 1)).
  - lia.
  - reflexivity.
  - intros k n Hn. lia.
Defined.

Lemma generatePiles_balanced_witness :
  pile01 (generatePiles 7) < pile00 (generatePiles 7)
  /\ pile10 (generatePiles 7) < pile00 (generatePiles 7)
  /\ pile00 (generatePiles 7) <= (7 * 2) / 3
  /\ 1 <= Math_ceil_div 7 6 <= pile01 (generatePiles 7)
  /\ Math_ceil_div 7 6 <= pile10 (generatePiles 7).
Proof.
  apply (proj1 (generatePiles_balanced 7)). lia.
Defined.

Example generatePiles_levels :
  map generatePiles [1; 5; 6; 7; 8; 12]
  = [mkPileCounts 1 0 0; mkPileCounts 5 0 0; mkPileCounts 4 1 1;
     mkPileCounts 3 2 2; mkPileCounts 4 2 2; mkPileCounts 8 2 2].
Proof. vm_compute. reflexivity. Qed.

(** * Keyboard input *)

Lemma keys_fold events :
  forall f,
    let f' := fold_left (fun frameInputs event =>
                           fst (handleKeyDown event frameInputs)) events f in
    moveLeft f' = moveLeft f || existsb (pressed ["ArrowLeft"; "a"]) events
    /\ moveRight f' = moveRight f || existsb (pressed ["ArrowRight"; "d"]) events
    /\ drop f' = drop f || existsb (pressed ["ArrowDown"; " "; "s"]) events
    /\ (inputSelectShape f' = inputSelectShape f
        \/ exists i, inputSelectShape f' = Some i /\ 0 <= i < 3).
Proof.
  induction events as [|ev events IH]; intros f; simpl.
  - rewrite !orb_false_r. auto.
  - destruct (IH (fst (handleKeyDown ev f))) as (HL & HR & HD & HS).
    rewrite HL, HR, HD. clear HL HR HD IH.
    unfold handleKeyDown, pressed in *. simpl existsb.
    destruct (ctrlKey ev || altKey ev || metaKey ev); simpl; [by auto|].
    rewrite !orb_false_r.
    destruct (String.eqb (key ev) "ArrowLeft") eqn:E1.
    { apply String.eqb_eq in E1. rewrite E1 in *. simpl in *.
      rewrite !orb_true_r. repeat split; auto. }
    destruct (String.eqb (key ev) "a") eqn:E2.
    { apply String.eqb_eq in E2. rewrite E2 in *. simpl in *.
      rewrite !orb_true_r. repeat split; auto. }
    destruct (String.eqb (key ev) "ArrowRight") eqn:E3.
    { apply String.eqb_eq in E3. rewrite E3 in *. simpl in *.
      rewrite !orb_true_r. repeat split; auto. }
    destruct (String.eqb (key ev) "d") eqn:E4.
    { apply String.eqb_eq in E4. rewrite E4 in *. simpl in *.
      rewrite !orb_true_r. repeat split; auto. }
    destruct (String.eqb (key ev) "ArrowDown") eqn:E5.
    { apply String.eqb_eq in E5. rewrite E5 in *. simpl in *.
      rewrite !orb_true_r. repeat split; auto. }
    destruct (String.eqb (key ev) " ") eqn:E6.
    { apply String.eqb_eq in E6. rewrite E6 in *. simpl in *.
      rewrite !orb_true_r. repeat split; auto. }
    destruct (String.eqb (key ev) "s") eqn:E7.
    { apply String.eqb_eq in E7. rewrite E7 in *. simpl in *.
      rewrite !orb_true_r. repeat split; auto. }
    simpl in *.
    assert (Hsel : forall i, 0 <= i < 3 ->
              (inputSelectShape
                 (fold_left (fun frameInputs event =>
                               fst (handleKeyDown event frameInputs)) events
                    (mkInputs (moveLeft f) (moveRight f) (drop f) (Some i)))
               = Some i
               \/ exists j, inputSelectShape
                   (fold_left (fun frameInputs event =>
                                 fst (handleKeyDown event frameInputs)) events
                      (mkInputs (moveLeft f) (moveRight f) (drop f) (Some i)))
                 = Some j /\ 0 <= j < 3) ->
              exists j, inputSelectShape
                   (fold_left (fun frameInputs event =>
                                 fst (handleKeyDown event frameInputs)) events
                      (mkInputs (moveLeft f) (moveRight f) (drop f) (Some i)))
                 = Some j /\ 0 <= j < 3).
    { intros i Hi [Hsame|Hnew]; [by exists i|done]. }
    destruct (String.eqb (key ev) "1");
      [simpl in *; repeat split; auto; right; apply (Hsel 0); [lia|done]|].
    destruct (String.eqb (key ev) "2");
      [simpl in *; repeat split; auto; right; apply (Hsel 1); [lia|done]|].
    destruct (String.eqb (key ev) "3");
      [simpl in *; repeat split; auto; right; apply (Hsel 2); [lia|done]|].
    simpl in *. repeat split; auto.
Qed.

Lemma keysOfFrame_flags_range events :
  inputSelectShape (keysOfFrame events) = None
  \/ exists i, inputSelectShape (keysOfFrame events) = Some i /\ 0 <= i < 3.
Proof.
  unfold keysOfFrame.
  destruct (keys_fold events resetFrameState) as (_ & _ & _ & HS). exact HS.
Qed.

(** X17. The inputs that a frame's key events leave: [moveLeft] is set
    exactly when ArrowLeft or a was pressed without Ctrl, Alt or Meta,
    [moveRight] likewise for ArrowRight or d, [drop] for ArrowDown, space
    or s; and the selection is either none or one of the slots 0, 1, 2 —
    never an index that [selectShape] would have to replace. *)
Theorem keysOfFrame_flags events :
  moveLeft (keysOfFrame events) = existsb (pressed ["ArrowLeft"; "a"]) events
  /\ moveRight (keysOfFrame events) = existsb (pressed ["ArrowRight"; "d"]) events
  /\ drop (keysOfFrame events) = existsb (pressed ["ArrowDown"; " "; "s"]) events
  /\ (inputSelectShape (keysOfFrame events) = None
      \/ exists i, inputSelectShape (keysOfFrame events) = Some i /\ 0 <= i < 3).
Proof.
  unfold keysOfFrame.
  destruct (keys_fold events resetFrameState) as (HL & HR & HD & HS).
  simpl in HL, HR, HD, HS. by rewrite HL, HR, HD.
Qed.

Section KeyboardSelection.

Variable Math_pow : float -> Z -> float.

(** X18. Keyboard selection never meets the fallback of [selectShape]:
    in every state reached from initialisation the preview queue has a
    shape in the slot that the key names, and when no piece is active the
    frame's [update] removes that shape from the queue, appends a fresh
    one and spawns it. *)
Theorem keyboard_selection_takes_named_slot cfg rnd ops events deltaTime i :
  valid_config cfg ->
  inputSelectShape (keysOfFrame events) = Some i ->
  exists g0 rnd0 g rnd1 chosen,
    init (constructor cfg) rnd = Ok (g0, rnd0)
    /\ run Math_pow ops g0 rnd0 = Ok (g, rnd1)
    /\ 0 <= i < 3
    /\ nextShapes g !! Z.to_nat i = Some chosen
    /\ (gameState g = PLAYING -> currentPiece g = None ->
        update Math_pow deltaTime (keysOfFrame events) g rnd1
        = Ok (spawnNewPiece
                (set_nextShapes
                   (delete (Z.to_nat i) (nextShapes g) ++ [SHAPES_at (rnd1 O)])
                   (set_currentPiece (Some chosen) g)),
              fun n => rnd1 (S n))).
Proof.
  intros Hcfg Hsel.
  destruct (reachable_inv Math_pow cfg rnd ops Hcfg)
    as (g0 & rnd0 & g & rnd1 & Hinit & Hrun & _).
  pose proof (queue_length_invariant Math_pow cfg rnd ops g0 rnd0 g rnd1 Hinit Hrun)
    as Hlen.
  destruct (keysOfFrame_flags_range events) as [Hnone|(j & Hj & Hrange)];
    [congruence|].
  rewrite Hsel in Hj. injection Hj as <-.
  destruct (lookup_lt_is_Some_2 (nextShapes g) (Z.to_nat i)) as [chosen Hq]; [lia|].
  exists g0, rnd0, g, rnd1, chosen.
  repeat (split; [done|]).
  intros Hplay Hnone. unfold update. rewrite Hplay, Hnone, Hsel.
  f_equal. apply selectShape_valid; [lia|done].
Qed.

End KeyboardSelection.



Lemma keyboard_selection_takes_named_slot_witness :
  exists g0 rnd0 g rnd1 chosen,
    init (constructor sampleConfig) (rnd_const Ix3) = Ok (g0, rnd0)
    /\ run pow_by_mul sampleOps g0 rnd0 = Ok (g, rnd1)
    /\ 0 <= 1 < 3
    /\ nextShapes g !! Z.to_nat 1 = Some chosen
    /\ (gameState g = PLAYING -> currentPiece g = None ->
        update pow_by_mul 0.02%float
          (keysOfFrame [mkKeyEvent false false false "a";
                        mkKeyEvent false false false "2"]) g rnd1
        = Ok (spawnNewPiece
                (set_nextShapes
                   (delete (Z.to_nat 1) (nextShapes g) ++ [SHAPES_at (rnd1 O)])
                   (set_currentPiece (Some chosen) g)),
              fun n => rnd1 (S n))).
Proof.
  apply (keyboard_selection_takes_named_slot pow_by_mul sampleConfig
           (rnd_const Ix3) sampleOps
           [mkKeyEvent false false false "a"; mkKeyEvent false false false "2"]
           0.02%float 1).
  - split; [split; [reflexivity|discriminate]|reflexivity].
  - reflexivity.
Defined.
